(** * AR-tools notebooks: the DSR/CSTR demonstration and the bounding
    hyperplane demonstration

    A shallow embedding of the code cells of the two notebooks

    - "The connection between DSRs and CSTRs" (module [DSR] below), and
    - "Bounding hyperplane demo" (module [Hyperplane] below),

    together with the properties the specification states about them.

    Numbers.  The notebooks compute with numpy's float64.  The code is
    embedded once, over an abstract scalar type with the arithmetic
    operators the cells use ([Scalar]), and is instantiated with
    - IEEE binary64 (the kernel's primitive floats), on which the cells run
      as they do in Python,
    - the canonical rationals [Qc], exact and executable, and
    - the real numbers [R], exact, with the logarithm and the power
      function the time grids need.
    A property that only follows the data flow of a cell is proved for every
    scalar type, binary64 included.  A property that rests on algebra
    (0 * x = 0, x - x = 0) is proved for every scalar type with these laws
    ([ExactArith]); binary64 is not one of them (NaN, infinities, signed
    zeros, rounding).

    External routines.  [newton_krylov], [odeint], matplotlib and the
    [artools] module are not part of the notebooks.  A cell is embedded as a
    [script]: the sequence of calls it makes to such routines, each with the
    arguments the cell hands over, and what it does with the value that
    comes back.  [run] plays a script against an environment that answers
    the calls; an answer is a value (possibly with warnings written to
    stderr) or a raised exception.  Arrays are values: a routine does not
    write into an array it is handed, so [cstr_cf], which the locus cell
    also passes as the first guess ([c_guess = cstr_cf]), stays the feed. *)

From Stdlib Require Import String Bool ZArith QArith Qcanon Reals Lra Lia.
From Stdlib Require Import Floats Uint63 List.
Import ListNotations.

(* ================================================================== *)
(** ** Scalars *)

(** The arithmetic a cell applies to one float: decimal literals, [+], [-],
    [*] and unary minus. *)
Class Scalar (A : Type) : Type := {
  lit : Q -> A;
  add : A -> A -> A;
  sub : A -> A -> A;
  mul : A -> A -> A;
  neg : A -> A
}.

Declare Scope num_scope.
Delimit Scope num_scope with num.
Notation "x + y" := (add x y) : num_scope.
Notation "x - y" := (sub x y) : num_scope.
Notation "x * y" := (mul x y) : num_scope.
Notation "- x" := (neg x) : num_scope.

(** [x ** n] for a literal exponent [n], as repeated multiplication: exact
    over the reals and the rationals.  On binary64 a numpy scalar is raised
    to a power by the C library's [pow], whose result can differ from the
    rounded product in the last bit; the statements on binary64 below hold
    for whatever value a rate has, and none rests on the value of a
    square. *)
Fixpoint power {A} `{Scalar A} (x : A) (n : nat) : A :=
  match n with
  | O => lit 1
  | S O => x
  | S m => mul x (power x m)
  end.
Notation "x ** n" := (power x n) (at level 30, right associativity) : num_scope.

(** The laws of exact arithmetic that the algebraic properties use.  They
    hold in every ring. *)
Class ExactArith (A : Type) `{Scalar A} : Prop := {
  add_zero_r : forall x : A, add x (lit 0) = x;
  mul_zero_l : forall x : A, mul (lit 0) x = lit 0;
  mul_zero_r : forall x : A, mul x (lit 0) = lit 0;
  sub_diag   : forall x : A, sub x x = lit 0
}.

(** What the cells use of numpy beyond arithmetic: [sp.log10] and
    [sp.logspace(start, stop, num)]. *)
Class Numpy (A : Type) : Type := {
  log10 : A -> A;
  logspace : A -> A -> nat -> list A
}.

(* ------------------------------------------------------------------ *)
(** *** The real numbers *)

#[export] Instance R_Scalar : Scalar R := {
  lit := Q2R;
  add := Rplus;
  sub := Rminus;
  mul := Rmult;
  neg := Ropp
}.

(** Modelled from the spec: [sp.log10] is a library routine, not part of the
    repository; on a positive real it is the base-10 logarithm. *)
Definition Rlog10 (x : R) : R := (ln x / ln 10)%R.

(** Modelled from the spec: the exponents of a logarithmically spaced grid,
    [num] evenly spaced samples [start + i * (stop - start) / (num - 1)]
    from [start] to [stop]. *)
Definition Rlinspace (start stop : R) (num : nat) : list R :=
  map (fun i : nat => (start + INR i * ((stop - start) / INR (num - 1)))%R)
      (seq 0 num).

(** Modelled from the spec: [sp.logspace(start, stop, num)] is a library
    routine, not part of the repository; it returns [num] values spaced
    evenly on a log scale ("logarithmically spaced") from [10 ** start] to
    [10 ** stop]. *)
Definition Rlogspace (start stop : R) (num : nat) : list R :=
  map (Rpower 10) (Rlinspace start stop num).

#[export] Instance R_Numpy : Numpy R := {
  log10 := Rlog10;
  logspace := Rlogspace
}.

(* ------------------------------------------------------------------ *)
(** *** The canonical rationals *)

#[export] Instance Qc_Scalar : Scalar Qc := {
  lit := Q2Qc;
  add := Qcplus;
  sub := Qcminus;
  mul := Qcmult;
  neg := Qcopp
}.

(* ------------------------------------------------------------------ *)
(** *** IEEE binary64 *)

(** An integer of at most 62 bits as a float (exact below 2^53). *)
Definition float_of_Z (z : Z) : float :=
  match z with
  | Z0 => PrimFloat.zero
  | Zpos _ => PrimFloat.of_uint63 (Uint63.of_Z z)
  | Zneg p => PrimFloat.opp (PrimFloat.of_uint63 (Uint63.of_Z (Zpos p)))
  end.

(** A decimal literal [n/d] is read as the float nearest to it: the
    correctly rounded quotient of [n] and [d], both exact. *)
#[export] Instance binary64_Scalar : Scalar float := {
  lit := fun q => PrimFloat.div (float_of_Z (Qnum q)) (float_of_Z (Zpos (Qden q)));
  add := PrimFloat.add;
  sub := PrimFloat.sub;
  mul := PrimFloat.mul;
  neg := PrimFloat.opp
}.

(** What Python's [==] and numpy's [isnan], [isfinite] see of a float, read
    off its IEEE representation, and [==] on two arrays of one shape. *)
Definition is_nan64 (x : float) : bool :=
  match Prim2SF x with
  | S754_nan => true
  | _ => false
  end.

Definition is_finite64 (x : float) : bool :=
  match Prim2SF x with
  | S754_zero _ | S754_finite _ _ _ => true
  | _ => false
  end.

Definition SFfinite (x : spec_float) : Prop :=
  match x with
  | S754_zero _ | S754_finite _ _ _ => True
  | _ => False
  end.

Definition array_equal (x y : list float) : bool :=
  Nat.eqb (length x) (length y)
  && forallb (fun p => PrimFloat.eqb (fst p) (snd p)) (combine x y).

(* ================================================================== *)
(** ** Exceptions and results *)

Inductive exn : Type :=
| IndexError          (* an index past the end of an array *)
| ValueError          (* operands could not be broadcast together *)
| NoConvergence       (* raised by the root-finder *)
| OtherError (name : string).

Inductive result (X : Type) : Type :=
| Ok (x : X)
| Err (e : exn).
Arguments Ok {X} x.
Arguments Err {X} e.

Definition bind {X Y} (r : result X) (f : X -> result Y) : result Y :=
  match r with
  | Ok x => f x
  | Err e => Err e
  end.

Notation "x <- r ;; k" := (bind r (fun x => k))
  (at level 61, r at next level, right associativity).

Fixpoint mapM {X Y} (f : X -> result Y) (l : list X) : result (list Y) :=
  match l with
  | [] => Ok []
  | x :: l' => y <- f x ;; ys <- mapM f l' ;; Ok (y :: ys)
  end.

(* ================================================================== *)
(** ** Sequences and one-dimensional numpy arrays *)

(** [l[i]] as Python indexes a sequence: a negative [i] counts from the end,
    an index outside [-len, len) raises. *)
Definition pyindex {X} (l : list X) (i : Z) : result X :=
  let n := Z.of_nat (length l) in
  let j := if (i <? 0)%Z then (i + n)%Z else i in
  if ((0 <=? j) && (j <? n))%Z%bool then
    match nth_error l (Z.to_nat j) with
    | Some x => Ok x
    | None => Err IndexError
    end
  else Err IndexError.

Section Arrays.
Context {A : Type} `{Scalar A}.

Definition ndarray : Type := list A.

(** [C[i]] on a one-dimensional array. *)
Definition getitem (C : ndarray) (i : Z) : result A := pyindex C i.

Fixpoint zipwith (op : A -> A -> A) (x y : ndarray) : ndarray :=
  match x, y with
  | a :: x', b :: y' => op a b :: zipwith op x' y'
  | _, _ => []
  end.

(** An elementwise binary operator on two arrays: equal shapes are combined
    pointwise, an array of one element is stretched over the other, any
    other pair of shapes raises. *)
Definition broadcast (op : A -> A -> A) (x y : ndarray) : result ndarray :=
  if Nat.eqb (length x) (length y) then Ok (zipwith op x y)
  else match x, y with
       | [a], _ => Ok (map (op a) y)
       | _, [b] => Ok (map (fun a => op a b) x)
       | _, _ => Err ValueError
       end.

Definition arr_add : ndarray -> ndarray -> result ndarray := broadcast add.
Definition arr_sub : ndarray -> ndarray -> result ndarray := broadcast sub.

(** [s * x] for a scalar [s] and an array [x]. *)
Definition scal_mul (s : A) (x : ndarray) : ndarray := map (mul s) x.

(** [M[:, j]] and [M[i, j]] on a two-dimensional array held as its rows.
    The empty list stands for a two-dimensional array without rows (shape
    (0, n)), whose columns are empty.  The one-dimensional array that
    [sp.array([])] builds from an empty Python list, on which [M[:, j]]
    raises, is not represented: a statement that depends on the difference
    assumes an array with at least one row. *)
Definition column (M : list ndarray) (j : Z) : result ndarray :=
  mapM (fun row => getitem row j) M.

Definition item2 (M : list ndarray) (i j : Z) : result A :=
  row <- pyindex M i ;; getitem row j.
End Arrays.
Arguments ndarray A : clear implicits.

(* ================================================================== *)
(** ** Scripts: a cell as the calls it makes to external routines *)

Section Script.
Variable call : Type.            (* a call with the arguments handed over *)
Variable ret : call -> Type.     (* the type of the value it returns *)

(** A cell returns ([Done]), raises ([Throw]) or makes a call and goes on
    with the returned value ([Do]).  No cell of the notebooks catches an
    exception, so a continuation only ever receives a value. *)
Inductive script (R : Type) : Type :=
| Done (r : R)
| Throw (e : exn)
| Do (c : call) (k : ret c -> script R).
Arguments Done {R} r.
Arguments Throw {R} e.
Arguments Do {R} c k.

(** A pure step that may raise, then the rest of the cell. *)
Definition pure_step {X R} (r : result X) (k : X -> script R) : script R :=
  match r with
  | Ok x => k x
  | Err e => Throw e
  end.

(** What an external routine answers: it returns a value or it raises,
    either way possibly after writing warnings to stderr.  The answer to a
    call depends on its arguments alone. *)
Inductive reply (X : Type) : Type :=
| Returned (x : X) (warnings : list string)
| Raised (e : exn) (warnings : list string).
Arguments Returned {X} x warnings.
Arguments Raised {X} e warnings.

Definition world : Type := forall c : call, reply (ret c).

(** What one sees of a run: the calls made, in order, what was written to
    stderr, and how the cell ended. *)
Record outcome (R : Type) : Type := {
  calls : list call;
  stderr : list string;
  final : result R
}.
Arguments calls {R} o.
Arguments stderr {R} o.
Arguments final {R} o.

(** An exception of an external routine is not caught: it ends the cell. *)
Fixpoint run {R} (w : world) (p : script R) : outcome R :=
  match p with
  | Done r => {| calls := []; stderr := []; final := Ok r |}
  | Throw e => {| calls := []; stderr := []; final := Err e |}
  | Do c k =>
      match w c with
      | Returned x ws =>
          let o := run w (k x) in
          {| calls := c :: calls o; stderr := ws ++ stderr o; final := final o |}
      | Raised e ws => {| calls := [c]; stderr := ws; final := Err e |}
      end
  end.

(** What a call wrote to stderr. *)
Definition warnings_of (w : world) (c : call) : list string :=
  match w c with
  | Returned _ ws => ws
  | Raised _ ws => ws
  end.
End Script.
Arguments script {call} ret R.
Arguments warnings_of {call ret} w c.
Arguments world {call} ret.
Arguments Done {call ret R} r.
Arguments Throw {call ret R} e.
Arguments Do {call ret R} c k.
Arguments pure_step {call ret X R} r k.
Arguments Returned {X} x warnings.
Arguments Raised {X} e warnings.
Arguments run {call ret R} w p.
Arguments calls {call R} o.
Arguments stderr {call R} o.
Arguments final {call R} o.

Notation "x <~ r ;; k" := (pure_step r (fun x => k))
  (at level 61, r at next level, right associativity).

(* ================================================================== *)
(** ** Notebook "The connection between DSRs and CSTRs" *)

Module DSR.
Section Cells.
Context {A : Type} `{Scalar A} `{Numpy A}.
Local Open Scope num_scope.

Definition vec : Type := ndarray A.

(** Cell 2: autocatalytic kinetics.  [C = [cA, cB]]; the time [t] is
    accepted and never read, whatever it is. *)
Definition rate_fn {T : Type} (C : vec) (t : T) : result vec :=
  cA <- getitem C 0 ;;
  cB <- getitem C 1 ;;
  let k1 := lit 1 in
  let k2 := lit 1 in
  let rA := - k1 * cA * cB in
  let rB := k1 * cA * cB - k2 * cB ** 2 in
  let dC := [rA; rB] in
  Ok dC.

(** Cell 3: the DSR equation.  [opts] is the pair (alpha, C0). *)
Definition dsr_fn {T : Type} (C : vec) (t : T) (opts : A * vec) : result vec :=
  let alpha := fst opts in
  let C0 := snd opts in
  r <- rate_fn C t ;;
  d <- arr_sub C0 C ;;
  dC <- arr_add r (scal_mul alpha d) ;;
  Ok dC.

(** The calls the cells make. *)
Inductive call : Type :=
| newton_krylov (F : vec -> result vec) (xin : vec) (f_tol : A)
| odeint (func : vec -> A -> A * vec -> result vec) (y0 : vec) (t : vec)
         (args : A * vec)
| plt_figure
| plt_hold (b : bool)
| plt_plot (x y : vec) (fmt : string)
| plt_xlabel (s : string)
| plt_ylabel (s : string)
| plt_axis (v : vec)
| plt_show.

Definition ret (c : call) : Type :=
  match c with
  | newton_krylov _ _ _ => vec
  | odeint _ _ _ _ => list vec
  | _ => unit
  end.

(** Cell 4: the CSTR locus. *)
Definition cstr_ts : vec := logspace (- lit 3) (log10 (lit 50000)) 100.

Definition cstr_cf : vec := [lit 1; lit (1 # 10)].

(** The residual.  The source defines it inside the loop body, as a closure
    over the loop variable [tau] and the global [cstr_cf]; only the
    root-finder call of the same iteration calls it, so [tau] is the
    residence time of that iteration. *)
Definition cstr_fn (tau : A) (Ci : vec) : result vec :=
  ri <- rate_fn Ci (@nil A) ;;
  s <- arr_add cstr_cf (scal_mul tau ri) ;;
  f <- arr_sub s Ci ;;
  Ok f.

(** The [for tau in cstr_ts] loop, over the residence times still to come,
    with the current values of [c_guess] and [cstr_cs]. *)
Fixpoint cstr_loop (ts : list A) (c_guess : vec) (cstr_cs : list vec)
  : script ret (list vec) :=
  match ts with
  | [] => Done cstr_cs
  | tau :: ts' =>
      Do (newton_krylov (cstr_fn tau) c_guess (lit (1 # 10000)))
         (fun Ci => cstr_loop ts' Ci (cstr_cs ++ [Ci]))
  end.

(** The whole cell: [c_guess = cstr_cf], [cstr_cs = []], the loop, and the
    list turned into an array. *)
Definition cstr_cell : script ret (list vec) := cstr_loop cstr_ts cstr_cf [].

(** The same loop, read for the variables it leaves in the kernel: the pair
    ([c_guess], [cstr_cs]) when the loop stops.  An iteration assigns
    [c_guess = Ci] and appends [Ci] to [cstr_cs] after the root-finder has
    returned; when the root-finder raises, the two statements of that
    iteration are not reached and the variables stay as the preceding
    iteration left them. *)
Fixpoint cstr_loop_vars (w : world ret) (ts : list A) (c_guess : vec)
    (cstr_cs : list vec) : vec * list vec :=
  match ts with
  | [] => (c_guess, cstr_cs)
  | tau :: ts' =>
      match w (newton_krylov (cstr_fn tau) c_guess (lit (1 # 10000))) with
      | Returned Ci _ => cstr_loop_vars w ts' Ci (cstr_cs ++ [Ci])
      | Raised _ _ => (c_guess, cstr_cs)
      end
  end.

Definition cstr_cell_vars (w : world ret) : vec * list vec :=
  cstr_loop_vars w cstr_ts cstr_cf [].

(** Cell 5: the plot.  [cstr_cs] is the global the previous cell left. *)
Definition plot_fn (cstr_cs : list vec) (t_end alpha Cf_x Cf_y : A)
  : script ret unit :=
  let Cf := [Cf_x; Cf_y] in
  let ts := logspace (- lit 3) (log10 t_end) 100 in
  let C0 := cstr_cf in
  let dsr_opts := (alpha, C0) in
  Do (odeint (dsr_fn (T:=A)) Cf ts dsr_opts) (fun dsr_cs =>
  Do plt_figure (fun _ =>
  Do (plt_hold true) (fun _ =>
  x <~ column cstr_cs 0 ;; y <~ column cstr_cs 1 ;;
  Do (plt_plot x y "bx") (fun _ =>
  x <~ column dsr_cs 0 ;; y <~ column dsr_cs 1 ;;
  Do (plt_plot x y "g") (fun _ =>
  x <~ item2 dsr_cs (-1) 0 ;; y <~ item2 dsr_cs (-1) 1 ;;
  Do (plt_plot [x] [y] "ro") (fun _ =>
  x <~ item2 dsr_cs 0 0 ;; y <~ item2 dsr_cs 0 1 ;;
  Do (plt_plot [x] [y] "y^") (fun _ =>
  Do (plt_xlabel "cA (mol/L)") (fun _ =>
  Do (plt_ylabel "cB (mol/L)") (fun _ =>
  Do (plt_axis [lit 0; lit 1; lit 0; lit (7 # 10)]) (fun _ =>
  Do plt_show (fun _ =>
  Done tt))))))))))).

(** Cell 6: [interact(plot_fn, t_end=(1,100,1), alpha=(0.0,5.0,0.005),
    Cf_x=(0.0,1.0,0.01), Cf_y=(0.0,1.0,0.01))].  A slider is (min, max,
    step); it offers [min + k * step] for every [k >= 0] that stays within
    [max], and [plot_fn] is called with one value of each slider. *)
Definition slider : Type := (Q * Q * Q)%type.

Definition t_end_slider : slider := (1%Q, 100%Q, 1%Q).
Definition alpha_slider : slider := (0%Q, 5%Q, (5 # 1000)%Q).
Definition Cf_x_slider : slider := (0%Q, 1%Q, (1 # 100)%Q).
Definition Cf_y_slider : slider := (0%Q, 1%Q, (1 # 100)%Q).

Definition offers (s : slider) (v : Q) : Prop :=
  let '(lo, hi, step) := s in
  exists k : nat, v = (lo + inject_Z (Z.of_nat k) * step)%Q /\ (v <= hi)%Q.

Definition interact (cstr_cs : list vec) (t_end alpha Cf_x Cf_y : Q)
  : script ret unit :=
  plot_fn cstr_cs (lit t_end) (lit alpha) (lit Cf_x) (lit Cf_y).

(** Two environments to run the cells against.  In both the integrator
    returns the initial state at every time and matplotlib returns nothing.
    In the first the root-finder makes no progress: it returns its guess as
    it is and writes a warning.  In the second it takes one fixed-point step
    [x + F(x)] and raises what the residual raises. *)
Definition stalled_world : world ret :=
  fun c =>
    match c as c0 return reply (ret c0) with
    | newton_krylov F g tol =>
        Returned g ["RuntimeWarning: invalid value encountered in double_scalars"%string]
    | odeint func y0 t args => Returned (map (fun _ => y0) t) []
    | _ => Returned tt []
    end.

Definition picard_world : world ret :=
  fun c =>
    match c as c0 return reply (ret c0) with
    | newton_krylov F g tol =>
        match (r <- F g ;; arr_add g r) with
        | Ok x => Returned x []
        | Err e => Raised e []
        end
    | odeint func y0 t args => Returned (map (fun _ => y0) t) []
    | _ => Returned tt []
    end.

(** The routine a call goes to, by name. *)
Definition routine (c : call) : string :=
  match c with
  | newton_krylov _ _ _ => "newton_krylov"
  | odeint _ _ _ _ => "odeint"
  | plt_figure => "plt.figure"
  | plt_hold _ => "plt.hold"
  | plt_plot _ _ _ => "plt.plot"
  | plt_xlabel _ => "plt.xlabel"
  | plt_ylabel _ => "plt.ylabel"
  | plt_axis _ => "plt.axis"
  | plt_show => "plt.show"
  end.

End Cells.
End DSR.

(* ================================================================== *)
(** ** Notebook "Bounding hyperplane demo" *)

Module Hyperplane.
Section Cells.
Context {K : Type} `{Scalar K}.
Local Open Scope num_scope.

Definition vec : Type := ndarray K.

(** Handles to matplotlib objects. *)
Inductive Figure : Type := figure_id (n : nat).
Inductive Axes : Type := axes_id (n : nat).

(** The calls the cell makes: to the [artools] module, which is not part of
    the notebook, and to matplotlib. *)
Inductive call : Type :=
| con2vert (A : list vec) (b : vec)
| plotHplanes (A : list vec) (b : vec)
| fig_gca (fig : Figure)
| plotRegion2D (Vs : list vec) (ax : Axes) (alpha : K) (plot_verts : bool)
| ax_set_xlim (ax : Axes) (lim : vec)
| ax_set_ylim (ax : Axes) (lim : vec)
| ax_set_xlabel (ax : Axes) (s : string)
| ax_set_ylabel (ax : Axes) (s : string)
| plt_show (fig : Figure).

Definition ret (c : call) : Type :=
  match c with
  | con2vert _ _ => list vec
  | plotHplanes _ _ => Figure
  | fig_gca _ => Axes
  | plotRegion2D _ _ _ _ => Figure
  | _ => unit
  end.

(** The hyperplane constraints [A x <= b] of the cell. *)
Definition constraints_A : list vec :=
  [ [- lit 1; lit 0];
    [lit 0; - lit 1];
    [lit 1; lit 1];
    [- lit (1 # 10); lit (8 # 10)] ].

Definition constraints_b (bi : K) : vec := [lit 0; lit 0; lit 1; bi].

(** Cell 5: the plot for the slider value [bi]. *)
Definition plot_fn (bi : K) : script ret unit :=
  let A := constraints_A in
  let b := constraints_b bi in
  Do (con2vert A b) (fun P_cs =>
  Do (plotHplanes A b) (fun fig =>
  Do (fig_gca fig) (fun ax =>
  Do (plotRegion2D P_cs ax (lit (3 # 10)) true) (fun fig =>
  Do (ax_set_xlim ax [- lit (1 # 10); lit (11 # 10)]) (fun _ =>
  Do (ax_set_ylim ax [- lit (1 # 10); lit (11 # 10)]) (fun _ =>
  Do (ax_set_xlabel ax "cA (mol/L)") (fun _ =>
  Do (ax_set_ylabel ax "cB (mol/L)") (fun _ =>
  Do (plt_show fig) (fun _ =>
  Done tt))))))))).

(** The routine a call goes to, by name. *)
Definition routine (c : call) : string :=
  match c with
  | con2vert _ _ => "artools.con2vert"
  | plotHplanes _ _ => "artools.plotHplanes"
  | fig_gca _ => "fig.gca"
  | plotRegion2D _ _ _ _ => "artools.plotRegion2D"
  | ax_set_xlim _ _ => "ax.set_xlim"
  | ax_set_ylim _ _ => "ax.set_ylim"
  | ax_set_xlabel _ _ => "ax.set_xlabel"
  | ax_set_ylabel _ _ => "ax.set_ylabel"
  | plt_show _ => "plt.show"
  end.

End Cells.
End Hyperplane.

(** Cell 3 of the same notebook: the two-dimensional van de Vusse kinetics
    ([k1 = k2 = 1.0], [k3 = 10.0]). *)
Module VanDeVusse.
Section Cells.
Context {K : Type} `{Scalar K}.
Local Open Scope num_scope.

Definition rate_fn {T : Type} (C : ndarray K) (t : T) : result (ndarray K) :=
  cA <- getitem C 0 ;;
  cB <- getitem C 1 ;;
  let k1 := lit 1 in
  let k2 := lit 1 in
  let k3 := lit 10 in
  Ok [ - k1 * cA - lit 2 * k3 * cA ** 2 ;
       k1 * cA - k2 * cB ].

End Cells.
End VanDeVusse.

(* ================================================================== *)
(** ** An environment for the DSR notebook over the reals *)

(** A root-finder that converges from the feed and from no other guess. *)
Definition diverging_world : world (@DSR.ret R) :=
  fun c =>
    match c as c0 return reply (DSR.ret c0) with
    | DSR.newton_krylov F g tol =>
        if list_eq_dec Req_EM_T g DSR.cstr_cf
        then Returned [(1 / 2)%R; (1 / 10)%R] []
        else Raised NoConvergence []
    | DSR.odeint func y0 t args => Returned (map (fun _ => y0) t) []
    | _ => Returned tt []
    end.



(* ================================================================== *)
(** * Properties *)

(** ** Indexing *)

Lemma pyindex_head {X} (a : X) (l : list X) : pyindex (a :: l) 0 = Ok a.
Proof.
  unfold pyindex.
  assert (Hn : (0 <? Z.of_nat (length (a :: l)))%Z = true).
  { apply Z.ltb_lt. simpl length. lia. }
  change (0 <? 0)%Z with false. cbv iota.
  change (0 <=? 0)%Z with true. rewrite Hn. reflexivity.
Qed.

Lemma pyindex_second {X} (a b : X) (l : list X) : pyindex (a :: b :: l) 1 = Ok b.
Proof.
  unfold pyindex.
  assert (Hn : (1 <? Z.of_nat (length (a :: b :: l)))%Z = true).
  { apply Z.ltb_lt. simpl length. lia. }
  change (1 <? 0)%Z with false. cbv iota.
  change (0 <=? 1)%Z with true. rewrite Hn. reflexivity.
Qed.

(** ** Two lists read side by side *)

Lemma nth_error_map_combine {X Y Z} (f : X * Y -> Z) (l1 : list X) (l2 : list Y)
    (i : nat) (c : Z) :
  nth_error (map f (combine l1 l2)) i = Some c ->
  exists a b, nth_error l1 i = Some a /\ nth_error l2 i = Some b /\ c = f (a, b).
Proof.
  revert l2 i. induction l1 as [|a l1 IH]; intros [|b l2] [|i] Hi;
    try discriminate Hi; simpl in Hi.
  - injection Hi as <-. exists a, b. auto.
  - apply IH in Hi. exact Hi.
Qed.

Lemma map_combine_nth_error {X Y Z} (f : X * Y -> Z) (l1 : list X) (l2 : list Y)
    (i : nat) (a : X) (b : Y) :
  nth_error l1 i = Some a -> nth_error l2 i = Some b ->
  nth_error (map f (combine l1 l2)) i = Some (f (a, b)).
Proof.
  revert l2 i. induction l1 as [|a' l1 IH]; intros [|b' l2] [|i] Ha Hb;
    try discriminate Ha; try discriminate Hb; simpl in *.
  - injection Ha as ->. injection Hb as ->. reflexivity.
  - now apply IH.
Qed.

Lemma last_cons {X} (a d : X) (l : list X) : last (a :: l) d = last l a.
Proof.
  revert a d. induction l as [|b l IH]; intros a d; [reflexivity|].
  change (last (a :: b :: l) d) with (last (b :: l) d).
  now rewrite (IH b d), (IH b a).
Qed.

Lemma nth_error_last {X} (g : X) (l : list X) :
  nth_error (g :: l) (length l) = Some (last l g).
Proof.
  revert g. induction l as [|a l IH]; intros g; [reflexivity|].
  cbn [length nth_error]. rewrite (IH a). f_equal. symmetry. apply last_cons.
Qed.

(** ** Runs *)

(** What a run leaves on stderr is what its calls wrote, in order. *)
Lemma run_stderr {call} {ret : call -> Type} {R} (w : world ret) (p : script ret R) :
  stderr (run w p) = flat_map (warnings_of w) (calls (run w p)).
Proof.
  induction p as [r|e|c k IH]; simpl; try reflexivity.
  destruct (w c) as [x ws|e ws] eqn:Hc; simpl.
  - rewrite IH. f_equal. unfold warnings_of. now rewrite Hc.
  - unfold warnings_of. rewrite Hc. now rewrite app_nil_r.
Qed.

Module DSRFacts.
Import DSR.
Section Generic.
Context {A : Type} `{Scalar A}.
Local Open Scope num_scope.

Lemma rate_fn_cons {T} (cA cB : A) (l : vec) (t : T) :
  rate_fn (cA :: cB :: l) t
  = Ok [ - lit 1 * cA * cB ; lit 1 * cA * cB - lit 1 * cB ** 2 ].
Proof.
  unfold rate_fn, getitem. rewrite pyindex_head, pyindex_second. reflexivity.
Qed.

Lemma rate_fn_short {T} (C : vec) (t : T) :
  (length C < 2)%nat -> rate_fn C t = Err IndexError.
Proof.
  destruct C as [|a [|b l]]; simpl length; intros Hlen; try lia; reflexivity.
Qed.

(** C8.  [rate_fn] never reads its time argument: two calls on the same
    concentration vector agree whatever the two times are (of whatever
    types, the empty list the residual passes included), on arrays of every
    length; and on [C = [cA, cB, ...]] the result is
    [[-k1*cA*cB, k1*cA*cB - k2*cB**2]] with [k1 = k2 = 1.0]. *)
Theorem rate_fn_ignores_time :
  (forall (T1 T2 : Type) (C : vec) (t1 : T1) (t2 : T2),
      rate_fn C t1 = rate_fn C t2)
  /\ (forall (T : Type) (cA cB : A) (l : vec) (t : T),
      rate_fn (cA :: cB :: l) t
      = Ok [ - lit 1 * cA * cB ; lit 1 * cA * cB - lit 1 * cB ** 2 ]).
Proof.
  split.
  - intros T1 T2 C t1 t2. reflexivity.
  - intros T cA cB l t. apply rate_fn_cons.
Qed.

(** C3.  The DSR right-hand side is the kinetics rate plus
    [alpha * (C0 - C)]: as numpy evaluates the expression (the rate first,
    then the difference, the scaling and the sum, each of which may raise),
    and componentwise on two-component vectors. *)
Theorem dsr_fn_is_rate_plus_relaxation :
  (forall (T : Type) (C : vec) (t : T) (alpha : A) (C0 : vec),
      dsr_fn C t (alpha, C0)
      = (r <- rate_fn C t ;; d <- arr_sub C0 C ;; arr_add r (scal_mul alpha d)))
  /\ (forall (T : Type) (cA cB : A) (t : T) (alpha c0A c0B : A),
      exists r1 r2,
        rate_fn [cA; cB] t = Ok [r1; r2] /\
        dsr_fn [cA; cB] t (alpha, [c0A; c0B])
        = Ok [ r1 + alpha * (c0A - cA) ; r2 + alpha * (c0B - cB) ]).
Proof.
  split.
  - intros T C t alpha C0. unfold dsr_fn. simpl fst. simpl snd.
    destruct (rate_fn C t) as [r|e]; simpl; [|reflexivity].
    destruct (arr_sub C0 C) as [d|e]; simpl; [|reflexivity].
    destruct (arr_add r (scal_mul alpha d)); reflexivity.
  - intros T cA cB t alpha c0A c0B.
    exists (- lit 1 * cA * cB), (lit 1 * cA * cB - lit 1 * cB ** 2). split.
    + apply rate_fn_cons.
    + unfold dsr_fn. rewrite rate_fn_cons. reflexivity.
Qed.

(** The DSR right-hand side is affine in [alpha]: for a fixed concentration
    vector and side-stream composition it is [r + alpha * d], where neither
    the rate [r] nor the difference [d = C0 - C] depends on [alpha]. *)
Theorem dsr_fn_affine_in_alpha (T : Type) (cA cB : A) (t : T) (c0A c0B : A) :
  exists r1 r2 d1 d2 : A,
    rate_fn [cA; cB] t = Ok [r1; r2] /\
    arr_sub [c0A; c0B] [cA; cB] = Ok [d1; d2] /\
    forall alpha : A,
      dsr_fn [cA; cB] t (alpha, [c0A; c0B])
      = Ok [ r1 + alpha * d1 ; r2 + alpha * d2 ].
Proof.
  exists (- lit 1 * cA * cB), (lit 1 * cA * cB - lit 1 * cB ** 2),
    (c0A - cA), (c0B - cB).
  split; [apply rate_fn_cons|]. split; [reflexivity|].
  intros alpha. unfold dsr_fn. rewrite rate_fn_cons. reflexivity.
Qed.

Section Exact.
Context `{!ExactArith A}.

(** In exact arithmetic, with [alpha = 0] the DSR equation is the kinetics
    rate, for every concentration vector [[cA, cB]], time and side-stream
    composition. *)
Lemma dsr_fn_alpha_zero (T : Type) (cA cB : A) (t : T) (c0A c0B : A) :
  dsr_fn [cA; cB] t (lit 0, [c0A; c0B]) = rate_fn [cA; cB] t.
Proof.
  unfold dsr_fn. rewrite rate_fn_cons. simpl.
  rewrite !mul_zero_l, !add_zero_r. reflexivity.
Qed.

(** In exact arithmetic, a side-stream of the local composition cancels the
    relaxation term, for every mixing factor. *)
Lemma dsr_fn_side_stream_is_local (T : Type) (alpha cA cB : A) (t : T) :
  dsr_fn [cA; cB] t (alpha, [cA; cB]) = rate_fn [cA; cB] t.
Proof.
  unfold dsr_fn. rewrite rate_fn_cons. simpl.
  rewrite !sub_diag, !mul_zero_r, !add_zero_r. reflexivity.
Qed.

End Exact.

(** *** The CSTR locus loop *)

Lemma cstr_fn_pair (tau cA cB : A) :
  cstr_fn tau [cA; cB]
  = Ok [ lit 1 + tau * (- lit 1 * cA * cB) - cA ;
         lit (1 # 10) + tau * (lit 1 * cA * cB - lit 1 * cB ** 2) - cB ].
Proof. unfold cstr_fn. rewrite rate_fn_cons. reflexivity. Qed.

(** The residual only returns on a two-component vector. *)
Lemma cstr_fn_ok (tau : A) (C f : vec) :
  cstr_fn tau C = Ok f ->
  exists cA cB, C = [cA; cB] /\
    f = [ lit 1 + tau * (- lit 1 * cA * cB) - cA ;
          lit (1 # 10) + tau * (lit 1 * cA * cB - lit 1 * cB ** 2) - cB ].
Proof.
  destruct C as [|cA [|cB [|c3 l]]]; intros Hf.
  - discriminate Hf.
  - discriminate Hf.
  - rewrite cstr_fn_pair in Hf. injection Hf as <-. eauto.
  - unfold cstr_fn in Hf. rewrite rate_fn_cons in Hf. discriminate Hf.
Qed.

(** The i-th call of a sequence of root-finder calls. *)
Lemma solver_calls_nth (ts : list A) (gs : list vec) (i : nat) (tau : A) (g : vec) :
  nth_error ts i = Some tau -> nth_error gs i = Some g ->
  nth_error (map (fun p => newton_krylov (cstr_fn (fst p)) (snd p) (lit (1 # 10000)))
                 (combine ts gs)) i
  = Some (newton_krylov (cstr_fn tau) g (lit (1 # 10000))).
Proof.
  intros Htau Hg.
  exact (map_combine_nth_error
           (fun p => newton_krylov (cstr_fn (fst p)) (snd p) (lit (1 # 10000)))
           ts gs i tau g Htau Hg).
Qed.

(** One run of the loop, whatever the root-finder answers.  [locus] is what
    the loop appended: the value returned for each residence time, each
    taken as the guess of the next, up to the first call that raised. *)
Lemma cstr_loop_run (w : world ret) (ts : list A) :
  forall (g : vec) (acc : list vec),
  exists locus : list vec,
    (length locus <= length ts)%nat /\
    calls (run w (cstr_loop ts g acc))
    = map (fun p => newton_krylov (cstr_fn (fst p)) (snd p) (lit (1 # 10000)))
          (combine ts (g :: locus)) /\
    (forall i Ci, nth_error locus i = Some Ci ->
       exists tau g' ws,
         nth_error ts i = Some tau /\ nth_error (g :: locus) i = Some g' /\
         w (newton_krylov (cstr_fn tau) g' (lit (1 # 10000))) = Returned Ci ws) /\
    ((final (run w (cstr_loop ts g acc)) = Ok (acc ++ locus) /\
      length locus = length ts)
     \/ (exists tau g' e ws,
           nth_error ts (length locus) = Some tau /\
           nth_error (g :: locus) (length locus) = Some g' /\
           w (newton_krylov (cstr_fn tau) g' (lit (1 # 10000))) = Raised e ws /\
           final (run w (cstr_loop ts g acc)) = Err e)).
Proof.
  induction ts as [|tau ts' IH]; intros g acc.
  - exists []. simpl. rewrite app_nil_r. repeat split; auto.
    intros [|i] Ci Hi; discriminate Hi.
  - simpl run.
    destruct (w (newton_krylov (cstr_fn tau) g (lit (1 # 10000))))
      as [Ci ws|e ws] eqn:Hw.
    + destruct (IH Ci (acc ++ [Ci])) as (locus & Hlen & Hcalls & Hnth & Hend).
      exists (Ci :: locus). simpl. repeat split.
      * lia.
      * f_equal. exact Hcalls.
      * intros [|i] Cj Hi; simpl in Hi.
        -- injection Hi as <-. exists tau, g, ws. auto.
        -- destruct (Hnth i Cj Hi) as (tau' & g' & ws' & H1 & H2 & H3).
           exists tau', g', ws'. auto.
      * destruct Hend as [[Hfin Hall]|(tau' & g' & e & ws' & H1 & H2 & H3 & Hfin)].
        -- left. split; [|lia].
           transitivity (Ok ((acc ++ [Ci]) ++ locus)); [exact Hfin|].
           now rewrite <- app_assoc.
        -- right. exists tau', g', e, ws'. auto.
    + exists []. simpl. rewrite combine_nil. repeat split.
      * lia.
      * intros [|i] Ci Hi; discriminate Hi.
      * right. exists tau, g, e, ws. auto.
Qed.

Section Cell.
Context `{!Numpy A}.

(** C1.  Whatever the root-finder answers, every call the cell makes is a
    root-finder call, the i-th one being handed the residual [cstr_fn tau]
    of the i-th residence time [tau] of the grid (with [f_tol = 1e-4]), and
    when the root-finder returns every time there is one such call for
    every residence time; that residual is
    [f(C) = Cf + tau * rate_fn(C) - C] with [Cf = [1.0, 0.1]]; and a vector
    on which it returns [[0, 0]] has two components that satisfy
    [Cf + tau * rate(C) - C = 0]. *)
Theorem cstr_residual_handed_to_solver (w : world ret) :
  (exists guesses : list vec,
      calls (run w cstr_cell)
      = map (fun p => newton_krylov (cstr_fn (fst p)) (snd p) (lit (1 # 10000)))
            (combine cstr_ts guesses))
  /\ ((forall F g tol, exists x ws, w (newton_krylov F g tol) = Returned x ws) ->
      length (calls (run w cstr_cell)) = length cstr_ts)
  /\ cstr_cf = [lit 1; lit (1 # 10)]
  /\ (forall (tau : A) (C : vec),
        cstr_fn tau C
        = (ri <- rate_fn C (@nil A) ;;
           s <- arr_add cstr_cf (scal_mul tau ri) ;;
           arr_sub s C))
  /\ (forall tau cA cB : A,
        cstr_fn tau [cA; cB]
        = Ok [ lit 1 + tau * (- lit 1 * cA * cB) - cA ;
               lit (1 # 10) + tau * (lit 1 * cA * cB - lit 1 * cB ** 2) - cB ])
  /\ (forall (tau : A) (C : vec),
        cstr_fn tau C = Ok [lit 0; lit 0] ->
        exists cA cB : A,
          C = [cA; cB] /\
          lit 1 + tau * (- lit 1 * cA * cB) - cA = lit 0 /\
          lit (1 # 10) + tau * (lit 1 * cA * cB - lit 1 * cB ** 2) - cB = lit 0).
Proof.
  split; [|split; [|split; [|split; [|split]]]].
  - unfold cstr_cell.
    destruct (cstr_loop_run w cstr_ts cstr_cf []) as (locus & _ & Hcalls & _).
    exists (cstr_cf :: locus). exact Hcalls.
  - intros Hret. unfold cstr_cell.
    destruct (cstr_loop_run w cstr_ts cstr_cf [])
      as (locus & _ & Hcalls & _ & Hend).
    destruct Hend as [[_ Hall]|(tau & g & e & ws' & _ & _ & Hraise & _)].
    + rewrite Hcalls, length_map, length_combine. simpl. lia.
    + destruct (Hret (cstr_fn tau) g (lit (1 # 10000))) as (x & ws & Hx).
      simpl in Hraise. congruence.
  - reflexivity.
  - intros tau C. unfold cstr_fn.
    destruct (rate_fn C []) as [ri|e]; simpl; [|reflexivity].
    destruct (arr_add cstr_cf (scal_mul tau ri)) as [s|e]; simpl; [|reflexivity].
    destruct (arr_sub s C); reflexivity.
  - apply cstr_fn_pair.
  - intros tau C Hroot.
    destruct (cstr_fn_ok tau C _ Hroot) as (cA & cB & -> & Hf).
    exists cA, cB. injection Hf as H1 H2. auto.
Qed.

(** C2.  Continuation seeding, whatever the root-finder answers.  The first
    call the cell makes is for the first residence time, with the feed
    [cstr_cf] as the guess.  Every later call is for the next residence
    time, and its guess is the value the call before it returned.  When the
    cell completes, its locus holds exactly one solution per residence
    time, in order: the i-th entry is what the i-th call returned.  And the
    cell completes when no call it makes raises. *)
Theorem cstr_loop_continuation_seeding (w : world ret) :
  (forall c, nth_error (calls (run w cstr_cell)) 0 = Some c ->
     exists tau,
       nth_error cstr_ts 0 = Some tau /\
       c = newton_krylov (cstr_fn tau) cstr_cf (lit (1 # 10000)))
  /\ (forall i c, nth_error (calls (run w cstr_cell)) (S i) = Some c ->
       exists (tau' : A) (g' Ci : vec) (ws : list string) (tau : A),
         nth_error cstr_ts i = Some tau' /\
         nth_error (calls (run w cstr_cell)) i
         = Some (newton_krylov (cstr_fn tau') g' (lit (1 # 10000))) /\
         w (newton_krylov (cstr_fn tau') g' (lit (1 # 10000))) = Returned Ci ws /\
         nth_error cstr_ts (S i) = Some tau /\
         c = newton_krylov (cstr_fn tau) Ci (lit (1 # 10000)))
  /\ (forall locus, final (run w cstr_cell) = Ok locus ->
       length locus = length cstr_ts /\
       length (calls (run w cstr_cell)) = length cstr_ts /\
       forall (i : nat) (Ci : vec), nth_error locus i = Some Ci ->
         exists (tau : A) (g : vec) (ws : list string),
           nth_error cstr_ts i = Some tau /\
           nth_error (calls (run w cstr_cell)) i
           = Some (newton_krylov (cstr_fn tau) g (lit (1 # 10000))) /\
           w (newton_krylov (cstr_fn tau) g (lit (1 # 10000))) = Returned Ci ws)
  /\ ((forall c, In c (calls (run w cstr_cell)) ->
         exists x ws, w c = Returned x ws) ->
      exists locus, final (run w cstr_cell) = Ok locus).
Proof.
  unfold cstr_cell.
  destruct (cstr_loop_run w cstr_ts cstr_cf [])
    as (locus & Hlen & Hcalls & Hnth & Hend).
  rewrite Hcalls.
  split; [|split; [|split]].
  - intros c Hc.
    apply nth_error_map_combine in Hc as (tau & g & Htau & Hg & ->).
    simpl in Hg. injection Hg as <-. exists tau. auto.
  - intros i c Hc.
    apply nth_error_map_combine in Hc as (tau & Ci & Htau & HCi & ->).
    simpl in HCi.
    destruct (Hnth i Ci HCi) as (tau' & g' & ws & Htau' & Hg' & Hw).
    exists tau', g', Ci, ws, tau. repeat split; auto.
    now apply solver_calls_nth.
  - intros l Hl.
    destruct Hend as [[Hfin Hall]|(tau & g & e & ws & _ & _ & _ & Herr)].
    + rewrite Hfin in Hl. simpl in Hl. injection Hl as <-.
      split; [exact Hall|]. split.
      * rewrite length_map, length_combine. simpl. lia.
      * intros i Ci HCi.
        destruct (Hnth i Ci HCi) as (tau & g & ws & Htau & Hg & Hw).
        exists tau, g, ws. repeat split; auto.
        now apply solver_calls_nth.
    + rewrite Herr in Hl. discriminate Hl.
  - intros Hret.
    destruct Hend as [[Hfin _]|(tau & g & e & ws & Htau & Hg & Hraise & _)].
    + exists ([] ++ locus). exact Hfin.
    + pose proof (solver_calls_nth _ _ _ _ _ Htau Hg) as Hin.
      apply nth_error_In in Hin. destruct (Hret _ Hin) as (x & ws' & Hx).
      simpl in Hx, Hraise. rewrite Hraise in Hx. discriminate Hx.
Qed.

(** The variables the loop leaves, against its run.  [locus] is what the
    loop appended to [cstr_cs] before it stopped. *)
Lemma cstr_loop_vars_run (w : world ret) (ts : list A) :
  forall (g : vec) (acc : list vec),
  exists locus : list vec,
    cstr_loop_vars w ts g acc = (last locus g, acc ++ locus) /\
    (length locus <= length ts)%nat /\
    calls (run w (cstr_loop ts g acc))
    = map (fun p => newton_krylov (cstr_fn (fst p)) (snd p) (lit (1 # 10000)))
          (combine ts (g :: locus)) /\
    (forall i Ci, nth_error locus i = Some Ci ->
       exists tau g' ws,
         nth_error ts i = Some tau /\ nth_error (g :: locus) i = Some g' /\
         w (newton_krylov (cstr_fn tau) g' (lit (1 # 10000))) = Returned Ci ws) /\
    ((final (run w (cstr_loop ts g acc)) = Ok (acc ++ locus) /\
      length locus = length ts)
     \/ (exists tau e ws,
           nth_error ts (length locus) = Some tau /\
           w (newton_krylov (cstr_fn tau) (last locus g) (lit (1 # 10000)))
           = Raised e ws /\
           final (run w (cstr_loop ts g acc)) = Err e)).
Proof.
  induction ts as [|tau ts' IH]; intros g acc.
  - exists []. simpl. rewrite app_nil_r. repeat split; auto.
    intros [|i] Ci Hi; discriminate Hi.
  - cbn [cstr_loop_vars cstr_loop run].
    destruct (w (newton_krylov (cstr_fn tau) g (lit (1 # 10000))))
      as [Ci ws|e ws] eqn:Hw.
    + destruct (IH Ci (acc ++ [Ci]))
        as (locus & Hvars & Hlen & Hcalls & Hnth & Hend).
      exists (Ci :: locus). rewrite last_cons. repeat split.
      * rewrite Hvars. now rewrite <- app_assoc.
      * simpl. lia.
      * cbn [calls combine map fst snd]. f_equal. exact Hcalls.
      * intros [|i] Cj Hi; simpl in Hi.
        -- injection Hi as <-. exists tau, g, ws. auto.
        -- destruct (Hnth i Cj Hi) as (tau' & g' & ws' & H1 & H2 & H3).
           exists tau', g', ws'. auto.
      * destruct Hend as [[Hfin Hall]|(tau' & e & ws' & H1 & H2 & Hfin)].
        -- left. split; [|simpl; lia]. cbn [final].
           transitivity (Ok ((acc ++ [Ci]) ++ locus)); [exact Hfin|].
           now rewrite <- app_assoc.
        -- right. exists tau', e, ws'. auto.
    + exists []. simpl. rewrite app_nil_r, combine_nil. repeat split.
      * lia.
      * intros [|i] Ci Hi; discriminate Hi.
      * right. exists tau, e, ws. auto.
Qed.

(** C4, as the code has it.  The loop never looks at what the root-finder
    returned: every returned value, a root of the residual or not and
    whatever warnings came with it, is appended to [cstr_cs] and taken as
    the guess of the call for the next residence time, which is made.  The
    loop catches nothing either: when the root-finder raises at a residence
    time, that exception ends the cell; [cstr_cs] then holds one solution
    for each earlier residence time, the value the call of that residence
    time returned, and none for this one, and no call is made for a later
    one.  [c_guess] is always the last solution appended, or the feed when
    there is none. *)
Theorem cstr_loop_unchecked_until_raise (w : world ret) :
  let c_guess := fst (cstr_cell_vars w) in
  let cstr_cs := snd (cstr_cell_vars w) in
  (length cstr_cs <= length cstr_ts)%nat
  /\ c_guess = last cstr_cs cstr_cf
  /\ (forall (i : nat) (Ci : vec), nth_error cstr_cs i = Some Ci ->
       exists (tau : A) (g : vec) (ws : list string),
         nth_error cstr_ts i = Some tau /\
         nth_error (cstr_cf :: cstr_cs) i = Some g /\
         nth_error (calls (run w cstr_cell)) i
         = Some (newton_krylov (cstr_fn tau) g (lit (1 # 10000))) /\
         w (newton_krylov (cstr_fn tau) g (lit (1 # 10000))) = Returned Ci ws)
  /\ (forall (i : nat) (tau : A) (g Ci : vec) (ws : list string),
       nth_error (calls (run w cstr_cell)) i
       = Some (newton_krylov (cstr_fn tau) g (lit (1 # 10000))) ->
       w (newton_krylov (cstr_fn tau) g (lit (1 # 10000))) = Returned Ci ws ->
       nth_error cstr_cs i = Some Ci
       /\ (forall tau', nth_error cstr_ts (S i) = Some tau' ->
             nth_error (calls (run w cstr_cell)) (S i)
             = Some (newton_krylov (cstr_fn tau') Ci (lit (1 # 10000)))))
  /\ ((final (run w cstr_cell) = Ok cstr_cs
       /\ length cstr_cs = length cstr_ts
       /\ length (calls (run w cstr_cell)) = length cstr_ts)
      \/ (exists tau e ws,
            nth_error cstr_ts (length cstr_cs) = Some tau /\
            w (newton_krylov (cstr_fn tau) c_guess (lit (1 # 10000))) = Raised e ws /\
            final (run w cstr_cell) = Err e /\
            length (calls (run w cstr_cell)) = S (length cstr_cs) /\
            (length cstr_cs < length cstr_ts)%nat)).
Proof.
  unfold cstr_cell_vars, cstr_cell.
  destruct (cstr_loop_vars_run w cstr_ts cstr_cf [])
    as (locus & Hvars & Hlen & Hcalls & Hnth & Hend).
  rewrite Hvars, Hcalls. cbn [fst snd app]. cbv zeta.
  assert (Hn : length (map (fun p => newton_krylov (cstr_fn (fst p)) (snd p)
                                       (lit (1 # 10000)))
                           (combine cstr_ts (cstr_cf :: locus)))
               = Nat.min (length cstr_ts) (S (length locus))).
  { rewrite length_map, length_combine. reflexivity. }
  pose proof (nth_error_last (@cstr_cf A _) locus) as Hguess.
  split; [exact Hlen|]. split; [reflexivity|]. split; [|split].
  - intros i Ci HCi.
    destruct (Hnth i Ci HCi) as (tau & g & ws & Htau & Hg & Hw).
    exists tau, g, ws. repeat split; auto.
    now apply solver_calls_nth.
  - intros i tau g Ci ws Hcall Hw.
    apply nth_error_map_combine in Hcall as (tau_i & g_i & Htau & Hg & Heq).
    cbn [fst snd] in Heq. injection Heq as EF Eg. subst g_i.
    rewrite EF in Hw.
    assert (Hi : (i < length locus)%nat).
    { destruct (Nat.lt_ge_cases i (length locus)) as [Hlt|Hge]; [exact Hlt|].
      exfalso.
      assert (Hil : (i < length (cstr_cf :: locus))%nat).
      { apply nth_error_Some. rewrite Hg. discriminate. }
      simpl in Hil. assert (i = length locus) as -> by lia.
      destruct Hend as [[_ Hall]|(tau_r & e & ws' & Htr & Hraise & _)].
      - assert (Hit : (length locus < length cstr_ts)%nat).
        { apply nth_error_Some. rewrite Htau. discriminate. }
        lia.
      - rewrite Hguess in Hg. injection Hg as <-.
        rewrite Htau in Htr. injection Htr as <-.
        simpl in Hraise, Hw. rewrite Hw in Hraise. discriminate Hraise. }
    destruct (nth_error locus i) as [Cj|] eqn:HCj;
      [|apply nth_error_None in HCj; lia].
    destruct (Hnth i Cj HCj) as (tau_j & g_j & ws_j & Htj & Hgj & Hwj).
    rewrite Htau in Htj. injection Htj as <-.
    rewrite Hg in Hgj. injection Hgj as <-.
    simpl in Hwj, Hw. rewrite Hw in Hwj. injection Hwj as <- _.
    split; [reflexivity|].
    intros tau' Htau'.
    now apply solver_calls_nth.
  - destruct Hend as [[Hfin Hall]|(tau & e & ws & Htau & Hraise & Hfin)].
    + left. split; [exact Hfin|]. split; [exact Hall|]. rewrite Hn. lia.
    + right. exists tau, e, ws.
      assert (Hlt : (length locus < length cstr_ts)%nat).
      { apply nth_error_Some. congruence. }
      repeat split; auto. rewrite Hn. lia.
Qed.

End Cell.
End Generic.
End DSRFacts.

(* ================================================================== *)
(** ** Exact arithmetic: the reals and the rationals *)

Lemma Q2R_of_Z (z : Z) : Q2R (inject_Z z) = IZR z.
Proof. unfold Q2R. simpl. field. Qed.

Lemma Q2R_tenth : Q2R (1 # 10) = (1 / 10)%R.
Proof. unfold Q2R. simpl. field. Qed.

Lemma R_exact : ExactArith R.
Proof.
  split; intros x; simpl; change 0%Q with (inject_Z 0);
    rewrite Q2R_of_Z; ring.
Qed.

Lemma Qc_exact : ExactArith Qc.
Proof.
  split; intros x; simpl; change (Q2Qc 0) with 0%Qc; ring.
Qed.

(* ================================================================== *)
(** ** The logarithmic grids, over the reals *)

Module GridFacts.
Local Open Scope R_scope.

Lemma ln_10_pos : 0 < ln 10.
Proof. rewrite <- ln_1. apply ln_increasing; lra. Qed.

Lemma Rpower_10_log10 (x : R) : 0 < x -> Rpower 10 (Rlog10 x) = x.
Proof.
  intros Hx. unfold Rpower, Rlog10.
  replace (ln x / ln 10 * ln 10) with (ln x).
  - now apply exp_ln.
  - field. pose proof ln_10_pos. lra.
Qed.

Lemma Rpower_10_m3 : Rpower 10 (-3) = 1 / 1000.
Proof.
  replace (-3) with (- INR 3) by (simpl; lra).
  rewrite Rpower_Ropp, Rpower_pow by lra. simpl. field.
Qed.

Lemma Rlog10_lower (x : R) : 1 / 1000 < x -> -3 < Rlog10 x.
Proof.
  intros Hx. unfold Rlog10.
  pose proof ln_10_pos as H10.
  assert (Hln : ln (1 / 1000) < ln x) by (apply ln_increasing; lra).
  assert (Hm3 : ln (1 / 1000) = -3 * ln 10).
  { rewrite <- Rpower_10_m3. unfold Rpower. now rewrite ln_exp. }
  apply Rmult_lt_reg_r with (ln 10); [exact H10|].
  replace (ln x / ln 10 * ln 10) with (ln x) by (field; lra).
  lra.
Qed.

(** The samples of [Rlinspace] with 100 points. *)
Lemma Rlinspace_100_nth (start stop : R) (i : nat) :
  (i < 100)%nat ->
  nth i (Rlinspace start stop 100) 0 = start + INR i * ((stop - start) / 99).
Proof.
  intros Hi. unfold Rlinspace.
  set (f := fun k : nat => start + INR k * ((stop - start) / INR (100 - 1))).
  rewrite (nth_indep _ 0 (f 0%nat)) by (rewrite length_map, length_seq; exact Hi).
  rewrite map_nth, seq_nth by exact Hi. simpl Nat.add. unfold f.
  replace (INR (100 - 1)) with 99 by (simpl; lra). reflexivity.
Qed.

Lemma Rlogspace_100_length (start stop : R) :
  length (Rlogspace start stop 100) = 100%nat.
Proof. unfold Rlogspace, Rlinspace. now rewrite !length_map, length_seq. Qed.

Lemma Rlogspace_100_nth (start stop : R) (i : nat) :
  (i < 100)%nat ->
  nth i (Rlogspace start stop 100) 0
  = Rpower 10 (start + INR i * ((stop - start) / 99)).
Proof.
  intros Hi. unfold Rlogspace.
  rewrite (nth_indep _ 0 (Rpower 10 0)).
  - rewrite map_nth. now rewrite Rlinspace_100_nth.
  - rewrite length_map. unfold Rlinspace. now rewrite length_map, length_seq.
Qed.

Lemma Rlogspace_100_increasing (start stop : R) (i j : nat) :
  start < stop -> (i < j < 100)%nat ->
  nth i (Rlogspace start stop 100) 0 < nth j (Rlogspace start stop 100) 0.
Proof.
  intros Hlt [Hij Hj].
  rewrite !Rlogspace_100_nth by lia.
  apply Rpower_lt; [lra|].
  apply Rplus_lt_compat_l, Rmult_lt_compat_r.
  - apply Rdiv_lt_0_compat; lra.
  - now apply lt_INR.
Qed.

Lemma logspace_R (t_end : R) :
  logspace (neg (lit 3)) (log10 t_end) 100 = Rlogspace (-3) (Rlog10 t_end) 100.
Proof.
  simpl. change 3%Q with (inject_Z 3). rewrite Q2R_of_Z.
  replace (- 3) with (-3) by lra. reflexivity.
Qed.

Lemma cstr_ts_R : DSR.cstr_ts = Rlogspace (-3) (Rlog10 50000) 100.
Proof.
  unfold DSR.cstr_ts. rewrite logspace_R. simpl lit.
  change 50000%Q with (inject_Z 50000). now rewrite Q2R_of_Z.
Qed.

Lemma cstr_cf_R : DSR.cstr_cf = [1; 1 / 10].
Proof.
  unfold DSR.cstr_cf. simpl lit. change 1%Q with (inject_Z 1).
  now rewrite Q2R_of_Z, Q2R_tenth.
Qed.

Lemma Rlogspace_100_ends (stop : R) :
  nth 0 (Rlogspace (-3) stop 100) 0 = 1 / 1000 /\
  nth 99 (Rlogspace (-3) stop 100) 0 = Rpower 10 stop.
Proof.
  rewrite !Rlogspace_100_nth by lia. split.
  - rewrite <- Rpower_10_m3. f_equal. simpl. lra.
  - f_equal. replace (INR 99) with 99 by (simpl; lra). field.
Qed.

(** C5.  Over the reals, with [logspace] and [log10] as the spec words them,
    the residence-time grid [cstr_ts] has exactly 100 entries, starts at
    1e-3, ends at 5e4, is logarithmically spaced (the i-th entry is 10 to
    the power [-3 + i * (log10(5e4) + 3) / 99]) and is strictly
    increasing. *)
Theorem cstr_ts_log_grid :
  length (DSR.cstr_ts (A:=R)) = 100%nat
  /\ nth 0 DSR.cstr_ts 0 = 1 / 1000
  /\ nth 99 DSR.cstr_ts 0 = 50000
  /\ (forall i : nat, (i < 100)%nat ->
        nth i DSR.cstr_ts 0 = Rpower 10 (-3 + INR i * ((Rlog10 50000 + 3) / 99)))
  /\ (forall i j : nat, (i < j < 100)%nat ->
        nth i DSR.cstr_ts 0 < nth j DSR.cstr_ts 0).
Proof.
  rewrite cstr_ts_R.
  destruct (Rlogspace_100_ends (Rlog10 50000)) as [Hfirst Hlast].
  split; [apply Rlogspace_100_length|].
  split; [exact Hfirst|].
  split; [rewrite Hlast; apply Rpower_10_log10; lra|].
  split.
  - intros i Hi. rewrite Rlogspace_100_nth by exact Hi. f_equal. lra.
  - intros i j Hij. apply Rlogspace_100_increasing; [|exact Hij].
    apply Rlog10_lower. lra.
Qed.

(** C7.  For every setting of the four sliders with a positive end time,
    and whatever the integrator answers, the first call of [plot_fn] is
    [odeint(dsr_fn, [Cf_x, Cf_y], ts, args=((alpha, cstr_cf),))]: the DSR
    equation, started at the feed [[Cf_x, Cf_y]], with the side-stream
    composition [cstr_cf = [1.0, 0.1]] whatever the sliders say, over the
    grid [ts = logspace(-3, log10(t_end), 100)], which over the reals has
    100 logarithmically spaced points from 1e-3 to [t_end]. *)
Theorem plot_fn_integrates_dsr (w : world DSR.ret) (cstr_cs : list DSR.vec)
    (t_end alpha Cf_x Cf_y : R) :
  0 < t_end ->
  exists ts : list R,
    hd_error (calls (run w (DSR.plot_fn cstr_cs t_end alpha Cf_x Cf_y)))
    = Some (DSR.odeint (DSR.dsr_fn (T:=R)) [Cf_x; Cf_y] ts (alpha, DSR.cstr_cf))
    /\ DSR.cstr_cf = [1; 1 / 10]
    /\ ts = logspace (neg (lit 3)) (log10 t_end) 100
    /\ length ts = 100%nat
    /\ nth 0 ts 0 = 1 / 1000
    /\ nth 99 ts 0 = t_end
    /\ (forall i : nat, (i < 100)%nat ->
          nth i ts 0 = Rpower 10 (-3 + INR i * ((Rlog10 t_end + 3) / 99))).
Proof.
  intros Hpos.
  exists (logspace (neg (lit 3)) (log10 t_end) 100).
  split.
  { unfold DSR.plot_fn. simpl run.
    destruct (w (DSR.odeint _ _ _ _)) as [dsr_cs ws|e ws]; reflexivity. }
  split; [apply cstr_cf_R|]. split; [reflexivity|].
  rewrite logspace_R.
  destruct (Rlogspace_100_ends (Rlog10 t_end)) as [Hfirst Hlast].
  split; [apply Rlogspace_100_length|].
  split; [exact Hfirst|].
  split; [rewrite Hlast; now apply Rpower_10_log10|].
  intros i Hi. rewrite Rlogspace_100_nth by exact Hi. f_equal. lra.
Qed.

(** Every value the end-time slider offers is positive. *)
Lemma t_end_slider_positive (q : Q) :
  DSR.offers DSR.t_end_slider q -> 0 < lit q.
Proof.
  intros (k & -> & _). simpl lit.
  rewrite Qreals.Q2R_plus, Qreals.Q2R_mult, !Q2R_of_Z.
  change 1%Q with (inject_Z 1). rewrite Q2R_of_Z.
  pose proof (IZR_le 0 (Z.of_nat k) (Zle_0_nat k)). lra.
Qed.

(** C7 at the top of the end-time slider. *)
Lemma plot_fn_integrates_dsr_witness :
  0 < 100 /\
  exists ts : list R,
    hd_error (calls (run DSR.stalled_world (DSR.plot_fn [] 100 (1 / 2) (3 / 10) (2 / 10))))
    = Some (DSR.odeint (DSR.dsr_fn (T:=R)) [3 / 10; 2 / 10] ts (1 / 2, DSR.cstr_cf))
    /\ length ts = 100%nat /\ nth 99 ts 0 = 100.
Proof.
  assert (Hpos : 0 < 100) by lra.
  split; [exact Hpos|].
  destruct (plot_fn_integrates_dsr DSR.stalled_world [] 100 (1 / 2) (3 / 10) (2 / 10) Hpos)
    as (ts & Hcall & _ & _ & Hlen & _ & Hlast & _).
  exists ts. auto.
Defined.

End GridFacts.

(* ================================================================== *)
(** ** The loop against the two environments *)

Lemma diverging_world_feed (F : DSR.vec -> result DSR.vec) (tol : R) :
  diverging_world (DSR.newton_krylov F DSR.cstr_cf tol)
  = Returned [(1 / 2)%R; (1 / 10)%R] [].
Proof.
  cbv beta iota delta [diverging_world].
  destruct (list_eq_dec Req_EM_T DSR.cstr_cf DSR.cstr_cf) as [_|Hne].
  - reflexivity.
  - now contradiction Hne.
Qed.

Lemma diverging_world_other (F : DSR.vec -> result DSR.vec) (tol : R) :
  diverging_world (DSR.newton_krylov F [(1 / 2)%R; (1 / 10)%R] tol)
  = Raised NoConvergence [].
Proof.
  cbv beta iota delta [diverging_world].
  destruct (list_eq_dec Req_EM_T [(1 / 2)%R; (1 / 10)%R] DSR.cstr_cf) as [Heq|_].
  - rewrite GridFacts.cstr_cf_R in Heq. injection Heq as Heq. lra.
  - reflexivity.
Qed.

(** C4 as stated fails.  Over the reals, against a root-finder that
    converges at the first residence time and raises [NoConvergence] at the
    second, the cell ends with that exception after two calls: the grid has
    100 residence times, and the other 98 are never processed. *)
Lemma cstr_loop_stops_when_solver_raises :
  length (DSR.cstr_ts (A:=R)) = 100%nat /\
  final (run diverging_world DSR.cstr_cell) = Err NoConvergence /\
  calls (run diverging_world DSR.cstr_cell)
  = [ DSR.newton_krylov (DSR.cstr_fn (nth 0 DSR.cstr_ts 0%R)) DSR.cstr_cf (lit (1 # 10000));
      DSR.newton_krylov (DSR.cstr_fn (nth 1 DSR.cstr_ts 0%R)) [(1 / 2)%R; (1 / 10)%R]
                        (lit (1 # 10000)) ].
Proof.
  assert (Hlen : length (DSR.cstr_ts (A:=R)) = 100%nat).
  { rewrite GridFacts.cstr_ts_R. apply GridFacts.Rlogspace_100_length. }
  split; [exact Hlen|].
  unfold DSR.cstr_cell.
  destruct (DSR.cstr_ts (A:=R)) as [|t0 [|t1 rest]]; try discriminate Hlen.
  cbn [DSR.cstr_loop run nth].
  rewrite diverging_world_feed. cbn [DSR.cstr_loop run app].
  rewrite diverging_world_other. split; reflexivity.
Qed.

(* ================================================================== *)
(** ** The bounding hyperplane demonstration *)

Module HyperplaneFacts.
Import Hyperplane.
Section Generic.
Context {K : Type} `{Scalar K}.
Local Open Scope num_scope.

(** C9.  For every slider value [bi], and whatever [artools] answers, the
    first call of [plot_fn] is [con2vert(A, b)] with the fixed 4x2 matrix
    [A = [[-1, 0], [0, -1], [1, 1], [-0.1, 0.8]]] and [b = [0, 0, 1, bi]];
    the matrices of two invocations are the same, their bound vectors have
    the same first three entries, and the fourth entry is the slider
    value. *)
Theorem plot_fn_constraints (w : world ret) (bi : K) :
  hd_error (calls (run w (plot_fn bi)))
  = Some (con2vert [ [- lit 1; lit 0]; [lit 0; - lit 1]; [lit 1; lit 1];
                     [- lit (1 # 10); lit (8 # 10)] ]
                   [lit 0; lit 0; lit 1; bi])
  /\ (forall (w' : world ret) (bi' : K),
       exists b b' : vec,
         hd_error (calls (run w (plot_fn bi))) = Some (con2vert constraints_A b) /\
         hd_error (calls (run w' (plot_fn bi'))) = Some (con2vert constraints_A b') /\
         firstn 3 b = firstn 3 b' /\
         skipn 3 b = [bi] /\ skipn 3 b' = [bi']).
Proof.
  assert (Hhd : forall (v : world ret) (x : K),
             hd_error (calls (run v (plot_fn x)))
             = Some (con2vert constraints_A (constraints_b x))).
  { intros v x. unfold plot_fn. simpl run.
    destruct (v (con2vert _ _)) as [P_cs ws|e ws]; reflexivity. }
  split.
  - apply Hhd.
  - intros w' bi'. exists (constraints_b bi), (constraints_b bi').
    rewrite !Hhd. repeat split.
Qed.

End Generic.
End HyperplaneFacts.

(* ================================================================== *)
(** ** The DSR equation on IEEE binary64 *)

Module Binary64Facts.
Local Open Scope float_scope.
#[local] Set Warnings "-inexact-float".

Lemma SFeqb_refl (x : spec_float) : x <> S754_nan -> SFeqb x x = true.
Proof.
  intros Hx. unfold SFeqb. destruct x as [s|s| |s m e]; simpl.
  - reflexivity.
  - destruct s; reflexivity.
  - congruence.
  - destruct s; rewrite Z.compare_refl, Pos.compare_cont_refl; reflexivity.
Qed.

(** Adding a zero of either sign changes nothing that [==] sees. *)
Lemma SF64add_zero_r (x : spec_float) (s : bool) :
  x <> S754_nan -> SFeqb (SF64add x (S754_zero s)) x = true.
Proof.
  intros Hx. destruct x as [sx|sx| |sx m e]; unfold SF64add, SFadd.
  - destruct sx, s; reflexivity.
  - apply SFeqb_refl. discriminate.
  - congruence.
  - apply SFeqb_refl. discriminate.
Qed.

Lemma is_finite64_SF (x : float) : is_finite64 x = true -> SFfinite (Prim2SF x).
Proof.
  unfold is_finite64, SFfinite. destruct (Prim2SF x); try discriminate; auto.
Qed.

Lemma is_nan64_SF (x : float) : is_nan64 x = false -> Prim2SF x <> S754_nan.
Proof. unfold is_nan64. destruct (Prim2SF x); discriminate. Qed.

Lemma SF64mul_zero_l (s : bool) (y : spec_float) :
  SFfinite y -> exists s', SF64mul (S754_zero s) y = S754_zero s'.
Proof.
  destruct y as [sy|sy| |sy m e]; simpl; intros Hy; try contradiction; eauto.
Qed.

Lemma SF64mul_zero_r (x : spec_float) (s : bool) :
  SFfinite x -> exists s', SF64mul x (S754_zero s) = S754_zero s'.
Proof.
  destruct x as [sx|sx| |sx m e]; simpl; intros Hx; try contradiction; eauto.
Qed.

Lemma SF64sub_diag (x : spec_float) :
  SFfinite x -> SF64sub x x = S754_zero false.
Proof.
  destruct x as [s|s| |s m e]; simpl; intros Hx; try contradiction.
  - destruct s; reflexivity.
  - unfold SF64sub, SFsub. rewrite Z.min_id.
    unfold shl_align. rewrite Z.sub_diag. reflexivity.
Qed.

Lemma float_add_zero_mul (r d : float) :
  is_nan64 r = false -> is_finite64 d = true -> (r + 0 * d =? r) = true.
Proof.
  intros Hr Hd.
  rewrite FloatAxioms.eqb_spec, FloatAxioms.add_spec, FloatAxioms.mul_spec.
  change (Prim2SF 0) with (S754_zero false).
  destruct (SF64mul_zero_l false _ (is_finite64_SF _ Hd)) as [s' ->].
  apply SF64add_zero_r. now apply is_nan64_SF.
Qed.

Lemma float_add_mul_sub_diag (r a c : float) :
  is_nan64 r = false -> is_finite64 a = true -> is_finite64 c = true ->
  (r + a * (c - c) =? r) = true.
Proof.
  intros Hr Ha Hc.
  rewrite FloatAxioms.eqb_spec, FloatAxioms.add_spec, FloatAxioms.mul_spec,
    FloatAxioms.sub_spec.
  rewrite (SF64sub_diag _ (is_finite64_SF _ Hc)).
  destruct (SF64mul_zero_r _ false (is_finite64_SF _ Ha)) as [s' ->].
  apply SF64add_zero_r. now apply is_nan64_SF.
Qed.

(** NaN is absorbing and equal to nothing. *)
Lemma SFeqb_nan_l (x : spec_float) : SFeqb S754_nan x = false.
Proof. reflexivity. Qed.

Lemma SFeqb_nan_r (x : spec_float) : SFeqb x S754_nan = false.
Proof. destruct x; reflexivity. Qed.

Lemma SF64add_nan_r (x : spec_float) : SF64add x S754_nan = S754_nan.
Proof. destruct x; reflexivity. Qed.

Lemma SF64mul_nan_r (x : spec_float) : SF64mul x S754_nan = S754_nan.
Proof. destruct x; reflexivity. Qed.

Lemma SF64mul_zero_not_finite (s : bool) (y : spec_float) :
  ~ SFfinite y -> SF64mul (S754_zero s) y = S754_nan.
Proof. destruct y; simpl; intros Hy; try reflexivity; now contradiction Hy. Qed.

Lemma SF64mul_not_finite_zero (x : spec_float) (s : bool) :
  ~ SFfinite x -> SF64mul x (S754_zero s) = S754_nan.
Proof. destruct x; simpl; intros Hx; try reflexivity; now contradiction Hx. Qed.

Lemma SF64sub_diag_not_finite (x : spec_float) :
  ~ SFfinite x -> SF64sub x x = S754_nan.
Proof.
  destruct x as [s|s| |s m e]; simpl; intros Hx; try reflexivity;
    try (now contradiction Hx).
  destruct s; reflexivity.
Qed.

Lemma not_finite64_SF (x : float) : is_finite64 x = false -> ~ SFfinite (Prim2SF x).
Proof.
  unfold is_finite64, SFfinite. destruct (Prim2SF x); try discriminate; auto.
Qed.

Lemma is_nan64_true_SF (x : float) : is_nan64 x = true -> Prim2SF x = S754_nan.
Proof. unfold is_nan64. destruct (Prim2SF x); try discriminate; reflexivity. Qed.

Lemma SF_is_nan64 (x : float) : Prim2SF x = S754_nan -> is_nan64 x = true.
Proof. unfold is_nan64. now intros ->. Qed.

(** A NaN is equal to nothing under [==]. *)
Lemma float_eqb_nan_r (x r : float) : is_nan64 r = true -> (x =? r) = false.
Proof.
  intros Hr. rewrite FloatAxioms.eqb_spec, (is_nan64_true_SF _ Hr).
  apply SFeqb_nan_r.
Qed.

Lemma float_eqb_nan_l (x r : float) : is_nan64 x = true -> (x =? r) = false.
Proof.
  intros Hx. rewrite FloatAxioms.eqb_spec, (is_nan64_true_SF _ Hx).
  apply SFeqb_nan_l.
Qed.

(** [0 * d] is NaN when [d] is infinite or NaN, and so is any sum with it. *)
Lemma float_add_zero_mul_nan (r d : float) :
  is_finite64 d = false -> is_nan64 (r + 0 * d) = true.
Proof.
  intros Hd. apply SF_is_nan64.
  rewrite FloatAxioms.add_spec, FloatAxioms.mul_spec.
  change (Prim2SF 0) with (S754_zero false).
  rewrite (SF64mul_zero_not_finite _ _ (not_finite64_SF _ Hd)).
  apply SF64add_nan_r.
Qed.

(** [a * (c - c)] is NaN when [a] or [c] is infinite or NaN. *)
Lemma float_add_mul_sub_diag_nan (r a c : float) :
  is_finite64 a = false \/ is_finite64 c = false ->
  is_nan64 (r + a * (c - c)) = true.
Proof.
  intros Hac. apply SF_is_nan64.
  rewrite FloatAxioms.add_spec, FloatAxioms.mul_spec, FloatAxioms.sub_spec.
  destruct (is_finite64 c) eqn:Hc.
  - destruct Hac as [Ha|Hc']; [|discriminate Hc'].
    rewrite (SF64sub_diag _ (is_finite64_SF _ Hc)).
    rewrite (SF64mul_not_finite_zero _ _ (not_finite64_SF _ Ha)).
    apply SF64add_nan_r.
  - rewrite (SF64sub_diag_not_finite _ (not_finite64_SF _ Hc)).
    rewrite SF64mul_nan_r. apply SF64add_nan_r.
Qed.

(** When [r + 0 * d] and [r] are [==]. *)
Lemma float_add_zero_mul_eqb (r d : float) :
  (r + 0 * d =? r) = negb (is_nan64 r) && is_finite64 d.
Proof.
  destruct (is_nan64 r) eqn:Hr.
  - now apply float_eqb_nan_r.
  - destruct (is_finite64 d) eqn:Hd.
    + now apply float_add_zero_mul.
    + apply float_eqb_nan_l. now apply float_add_zero_mul_nan.
Qed.

(** When [r + a * (c - c)] and [r] are [==]. *)
Lemma float_add_mul_sub_diag_eqb (r a c : float) :
  (r + a * (c - c) =? r) = negb (is_nan64 r) && (is_finite64 a && is_finite64 c).
Proof.
  destruct (is_nan64 r) eqn:Hr.
  - now apply float_eqb_nan_r.
  - destruct (is_finite64 a) eqn:Ha; destruct (is_finite64 c) eqn:Hc;
      try (apply float_eqb_nan_l, float_add_mul_sub_diag_nan; auto; fail).
    now apply float_add_mul_sub_diag.
Qed.

Lemma rate_fn_binary64 (T : Type) (cA cB : float) (t : T) :
  DSR.rate_fn [cA; cB] t = Ok [ - 1 * cA * cB ; 1 * cA * cB - 1 * (cB * cB) ].
Proof. rewrite (DSRFacts.rate_fn_cons (A:=float)). reflexivity. Qed.

(** The DSR equation with [alpha = 0] on binary64: when neither rate is NaN
    and both differences [C0 - C] are finite, [dsr_fn(C, t, (0, C0))] and
    [rate_fn(C, t)] are equal as [==] compares two arrays. *)
Theorem dsr_fn_alpha_zero_binary64 (T : Type) (cA cB : float) (t : T)
    (c0A c0B : float) (v : list float) :
  DSR.rate_fn [cA; cB] t = Ok v ->
  existsb is_nan64 v = false ->
  is_finite64 (c0A - cA) = true -> is_finite64 (c0B - cB) = true ->
  exists u, DSR.dsr_fn [cA; cB] t (lit 0, [c0A; c0B]) = Ok u
            /\ array_equal u v = true.
Proof.
  intros Hv Hnan HdA HdB.
  rewrite rate_fn_binary64 in Hv. injection Hv as <-.
  simpl existsb in Hnan. rewrite orb_false_r in Hnan.
  apply orb_false_elim in Hnan as [HnA HnB].
  unfold DSR.dsr_fn. rewrite rate_fn_binary64.
  eexists. split; [reflexivity|].
  unfold array_equal. simpl.
  change (PrimFloat.div 0 1) with 0.
  rewrite (float_add_zero_mul _ _ HnA HdA), (float_add_zero_mul _ _ HnB HdB).
  reflexivity.
Qed.

(** The DSR equation with the side-stream at the local composition on
    binary64: when neither rate is NaN and [alpha], [cA] and [cB] are
    finite, [dsr_fn(C, t, (alpha, C))] and [rate_fn(C, t)] are equal as [==]
    compares two arrays. *)
Theorem dsr_fn_side_stream_is_local_binary64 (T : Type) (alpha cA cB : float)
    (t : T) (v : list float) :
  DSR.rate_fn [cA; cB] t = Ok v ->
  existsb is_nan64 v = false ->
  is_finite64 alpha = true -> is_finite64 cA = true -> is_finite64 cB = true ->
  exists u, DSR.dsr_fn [cA; cB] t (alpha, [cA; cB]) = Ok u
            /\ array_equal u v = true.
Proof.
  intros Hv Hnan Ha HcA HcB.
  rewrite rate_fn_binary64 in Hv. injection Hv as <-.
  simpl existsb in Hnan. rewrite orb_false_r in Hnan.
  apply orb_false_elim in Hnan as [HnA HnB].
  unfold DSR.dsr_fn. rewrite rate_fn_binary64.
  eexists. split; [reflexivity|].
  unfold array_equal. simpl.
  rewrite (float_add_mul_sub_diag _ _ _ HnA Ha HcA),
    (float_add_mul_sub_diag _ _ _ HnB Ha HcB).
  reflexivity.
Qed.

(** The first theorem at [C = [0.5, 0.125]], [C0 = [1.0, 0.25]]. *)
Lemma dsr_fn_alpha_zero_binary64_witness :
  is_finite64 (1 - 0.5) = true /\ is_finite64 (0.25 - 0.125) = true /\
  exists u, DSR.dsr_fn [0.5; 0.125] tt (lit 0, [1; 0.25]) = Ok u
            /\ array_equal u [-0.0625; 0.046875] = true.
Proof.
  split; [reflexivity|]. split; [reflexivity|].
  apply (@dsr_fn_alpha_zero_binary64 unit 0.5 0.125 tt 1 0.25 [-0.0625; 0.046875]);
    reflexivity.
Defined.

(** The second theorem at [alpha = 2.5], [C = [0.5, 0.125]]. *)
Lemma dsr_fn_side_stream_is_local_binary64_witness :
  is_finite64 2.5 = true /\
  exists u, DSR.dsr_fn [0.5; 0.125] tt (2.5, [0.5; 0.125]) = Ok u
            /\ array_equal u [-0.0625; 0.046875] = true.
Proof.
  split; [reflexivity|].
  apply (@dsr_fn_side_stream_is_local_binary64 unit 2.5 0.5 0.125 tt
           [-0.0625; 0.046875]); reflexivity.
Defined.

(** The cells run on binary64 as they do in Python: the rate at the feed,
    the DSR right-hand side and the CSTR residual at sample points, and two
    iterations of the locus loop against the fixed-point root-finder. *)
Example rate_fn_at_feed :
  DSR.rate_fn (A:=float) [lit 1; lit (1 # 10)] tt
  = Ok [lit (-1 # 10); lit (9 # 100)].
Proof. vm_compute. reflexivity. Qed.

Example dsr_fn_sample :
  DSR.dsr_fn (A:=float) [lit (1 # 2); lit (1 # 10)] tt (lit (1 # 2), DSR.cstr_cf)
  = Ok [lit (2 # 10); lit (4 # 100)].
Proof. vm_compute. reflexivity. Qed.

Example cstr_fn_short_vector :
  DSR.cstr_fn (A:=float) 0.5 [1] = Err IndexError
  /\ DSR.cstr_fn (A:=float) 0.5 [1; 0.5; 0.25] = Err ValueError.
Proof. split; vm_compute; reflexivity. Qed.

Example cstr_loop_two_steps :
  let o := run DSR.picard_world (DSR.cstr_loop (A:=float) [0.5; 2] [1; 0.125] []) in
  final o = Ok [[0.9375; 0.1546875]; [0.7099609375; 0.3421826171875]]
  /\ List.length (calls o) = 2%nat /\ stderr o = [].
Proof. vm_compute. repeat split. Qed.

(** On binary64 the two sides of the algebraic properties can differ: a zero
    rate keeps its sign only without the relaxation term, and an infinite
    concentration turns the relaxation term into NaN.  Binary64 has no exact
    arithmetic. *)
Example dsr_fn_alpha_zero_signed_zero :
  DSR.rate_fn (A:=float) [0; 1] tt = Ok [-0; -1]
  /\ DSR.dsr_fn (A:=float) [0; 1] tt (lit 0, DSR.cstr_cf) = Ok [0; -1].
Proof. split; vm_compute; reflexivity. Qed.

Example dsr_fn_alpha_zero_infinite :
  DSR.rate_fn (A:=float) [infinity; 1] tt = Ok [neg_infinity; infinity]
  /\ DSR.dsr_fn (A:=float) [infinity; 1] tt (lit 0, DSR.cstr_cf) = Ok [nan; infinity].
Proof. split; vm_compute; reflexivity. Qed.

Lemma binary64_not_exact : ~ ExactArith float.
Proof.
  intros [_ Hmul _ _]. specialize (Hmul infinity).
  apply (f_equal is_nan64) in Hmul. vm_compute in Hmul. discriminate Hmul.
Qed.

End Binary64Facts.

(* ================================================================== *)
(** ** When the relaxation term vanishes: the reals and binary64 *)

Module RelaxationFacts.
#[local] Set Warnings "-inexact-float".

(** C6, as the code has it.  Over the real numbers the DSR equation with
    [alpha = 0] is the kinetics rate, for every [C = [cA, cB]], time and
    side-stream composition [C0 = [c0A, c0B]].  On binary64, the numbers
    the code computes with, both functions return two components, and a
    component of [dsr_fn(C, t, (0, C0))] is [==] to that component of
    [rate_fn(C, t)] exactly when this rate is not NaN and this component of
    [C0 - C] is finite; when the difference is infinite or NaN, the
    component of [dsr_fn] is NaN.  So the two arrays are equal as [==]
    compares arrays exactly when no rate is NaN and [C0 - C] is finite. *)
Theorem dsr_fn_alpha_zero_reals_and_binary64 :
  (forall (T : Type) (cA cB : R) (t : T) (c0A c0B : R),
      DSR.dsr_fn [cA; cB] t (lit 0, [c0A; c0B]) = DSR.rate_fn [cA; cB] t)
  /\ (forall (T : Type) (cA cB : float) (t : T) (c0A c0B : float),
       exists rA rB dA dB : float,
         DSR.rate_fn [cA; cB] t = Ok [rA; rB]
         /\ DSR.dsr_fn [cA; cB] t (lit 0, [c0A; c0B]) = Ok [dA; dB]
         /\ PrimFloat.eqb dA rA
            = negb (is_nan64 rA) && is_finite64 (PrimFloat.sub c0A cA)
         /\ PrimFloat.eqb dB rB
            = negb (is_nan64 rB) && is_finite64 (PrimFloat.sub c0B cB)
         /\ (is_finite64 (PrimFloat.sub c0A cA) = false -> is_nan64 dA = true)
         /\ (is_finite64 (PrimFloat.sub c0B cB) = false -> is_nan64 dB = true)
         /\ (array_equal [dA; dB] [rA; rB] = true
             <-> existsb is_nan64 [rA; rB] = false
                 /\ is_finite64 (PrimFloat.sub c0A cA) = true
                 /\ is_finite64 (PrimFloat.sub c0B cB) = true)).
Proof.
  split.
  - intros T cA cB t c0A c0B.
    exact (@DSRFacts.dsr_fn_alpha_zero R R_Scalar R_exact T cA cB t c0A c0B).
  - intros T cA cB t c0A c0B.
    do 4 eexists.
    split; [apply Binary64Facts.rate_fn_binary64|].
    split.
    { unfold DSR.dsr_fn. rewrite Binary64Facts.rate_fn_binary64.
      cbn [fst snd bind arr_sub arr_add broadcast length Nat.eqb zipwith
           scal_mul map].
      change (lit 0) with (PrimFloat.div 0 1).
      change (PrimFloat.div 0 1) with 0%float. reflexivity. }
    cbn [add sub mul binary64_Scalar].
    split; [apply Binary64Facts.float_add_zero_mul_eqb|].
    split; [apply Binary64Facts.float_add_zero_mul_eqb|].
    split; [apply Binary64Facts.float_add_zero_mul_nan|].
    split; [apply Binary64Facts.float_add_zero_mul_nan|].
    unfold array_equal. cbn [length Nat.eqb combine forallb fst snd existsb].
    rewrite !Binary64Facts.float_add_zero_mul_eqb.
    destruct (is_nan64 _), (is_nan64 _),
      (is_finite64 (PrimFloat.sub c0A cA)), (is_finite64 (PrimFloat.sub c0B cB));
      cbn; split; try tauto; try discriminate;
      intros (H1 & H2 & H3); discriminate.
Qed.

(** C6 as stated fails on the numbers the code computes with.  All four
    inputs are finite, but the difference [1e308 - (-1e308)] overflows:
    [0 * (C0 - C)] is NaN in the first component, and [dsr_fn] returns
    [[nan, 0.0]] where [rate_fn] returns [[0.0, -0.0]]. *)
Lemma dsr_fn_alpha_zero_overflow :
  forallb is_finite64 [(-1e308)%float; 0%float; 1e308%float; 0%float] = true
  /\ DSR.rate_fn [(-1e308)%float; 0%float] tt = Ok [0%float; (-0)%float]
  /\ DSR.dsr_fn [(-1e308)%float; 0%float] tt (lit 0, [1e308%float; 0%float])
     = Ok [nan; 0%float]
  /\ array_equal [nan; 0%float] [0%float; (-0)%float] = false
  /\ DSR.dsr_fn [(-1e308)%float; 0%float] tt (lit 0, [1e308%float; 0%float])
     <> DSR.rate_fn [(-1e308)%float; 0%float] tt.
Proof.
  assert (Hr : DSR.rate_fn [(-1e308)%float; 0%float] tt = Ok [0%float; (-0)%float])
    by (vm_compute; reflexivity).
  assert (Hd : DSR.dsr_fn [(-1e308)%float; 0%float] tt (lit 0, [1e308%float; 0%float])
               = Ok [nan; 0%float])
    by (vm_compute; reflexivity).
  split; [vm_compute; reflexivity|]. split; [exact Hr|]. split; [exact Hd|].
  split; [vm_compute; reflexivity|].
  rewrite Hr, Hd. intros Heq.
  apply (f_equal (fun r => match r with
                           | Ok (x :: _) => is_nan64 x
                           | _ => false
                           end)) in Heq.
  vm_compute in Heq. discriminate Heq.
Qed.

(** C10, as the code has it.  Over the real numbers a side-stream of the
    local composition cancels the relaxation term, for every mixing factor
    and every [C = [cA, cB]].  On binary64 both functions return two
    components, and a component of [dsr_fn(C, t, (alpha, C))] is [==] to
    that component of [rate_fn(C, t)] exactly when this rate is not NaN and
    [alpha] and this component of [C] are finite; when [alpha] or the
    component of [C] is infinite or NaN, the component of [dsr_fn] is
    NaN. *)
Theorem dsr_fn_side_stream_is_local_reals_and_binary64 :
  (forall (T : Type) (alpha cA cB : R) (t : T),
      DSR.dsr_fn [cA; cB] t (alpha, [cA; cB]) = DSR.rate_fn [cA; cB] t)
  /\ (forall (T : Type) (alpha cA cB : float) (t : T),
       exists rA rB dA dB : float,
         DSR.rate_fn [cA; cB] t = Ok [rA; rB]
         /\ DSR.dsr_fn [cA; cB] t (alpha, [cA; cB]) = Ok [dA; dB]
         /\ PrimFloat.eqb dA rA
            = negb (is_nan64 rA) && (is_finite64 alpha && is_finite64 cA)
         /\ PrimFloat.eqb dB rB
            = negb (is_nan64 rB) && (is_finite64 alpha && is_finite64 cB)
         /\ (is_finite64 alpha = false \/ is_finite64 cA = false ->
             is_nan64 dA = true)
         /\ (is_finite64 alpha = false \/ is_finite64 cB = false ->
             is_nan64 dB = true)
         /\ (array_equal [dA; dB] [rA; rB] = true
             <-> existsb is_nan64 [rA; rB] = false
                 /\ is_finite64 alpha = true
                 /\ is_finite64 cA = true /\ is_finite64 cB = true)).
Proof.
  split.
  - intros T alpha cA cB t.
    exact (@DSRFacts.dsr_fn_side_stream_is_local R R_Scalar R_exact T alpha cA cB t).
  - intros T alpha cA cB t.
    do 4 eexists.
    split; [apply Binary64Facts.rate_fn_binary64|].
    split.
    { unfold DSR.dsr_fn. rewrite Binary64Facts.rate_fn_binary64. reflexivity. }
    cbn [add sub mul binary64_Scalar].
    split; [apply Binary64Facts.float_add_mul_sub_diag_eqb|].
    split; [apply Binary64Facts.float_add_mul_sub_diag_eqb|].
    split; [apply Binary64Facts.float_add_mul_sub_diag_nan|].
    split; [apply Binary64Facts.float_add_mul_sub_diag_nan|].
    unfold array_equal. cbn [length Nat.eqb combine forallb fst snd existsb].
    rewrite !Binary64Facts.float_add_mul_sub_diag_eqb.
    destruct (is_nan64 _), (is_nan64 _), (is_finite64 alpha),
      (is_finite64 cA), (is_finite64 cB);
      cbn; split; try tauto; try discriminate;
      intros (H1 & H2 & H3 & H4); discriminate.
Qed.

(** C10 as stated fails on the numbers the code computes with.  For the
    mixing factor [inf], a float like any other, [alpha * (C - C)] is
    [inf * 0.0], which is NaN: [dsr_fn] returns [[nan, nan]] where
    [rate_fn] returns [[-0.0625, 0.046875]]. *)
Lemma dsr_fn_side_stream_is_local_infinite_alpha :
  DSR.rate_fn [0.5%float; 0.125%float] tt = Ok [(-0.0625)%float; 0.046875%float]
  /\ DSR.dsr_fn [0.5%float; 0.125%float] tt (infinity, [0.5%float; 0.125%float])
     = Ok [nan; nan]
  /\ array_equal [nan; nan] [(-0.0625)%float; 0.046875%float] = false
  /\ DSR.dsr_fn [0.5%float; 0.125%float] tt (infinity, [0.5%float; 0.125%float])
     <> DSR.rate_fn [0.5%float; 0.125%float] tt.
Proof.
  assert (Hr : DSR.rate_fn [0.5%float; 0.125%float] tt
               = Ok [(-0.0625)%float; 0.046875%float])
    by (vm_compute; reflexivity).
  assert (Hd : DSR.dsr_fn [0.5%float; 0.125%float] tt
                 (infinity, [0.5%float; 0.125%float]) = Ok [nan; nan])
    by (vm_compute; reflexivity).
  split; [exact Hr|]. split; [exact Hd|].
  split; [vm_compute; reflexivity|].
  rewrite Hr, Hd. intros Heq.
  apply (f_equal (fun r => match r with
                           | Ok (x :: _) => is_nan64 x
                           | _ => false
                           end)) in Heq.
  vm_compute in Heq. discriminate Heq.
Qed.

End RelaxationFacts.

(* ================================================================== *)
(** ** Shapes: when the functions of the DSR notebook return *)

Module ShapeFacts.
Import DSR.
Section Generic.
Context {A : Type} `{Scalar A}.
Local Open Scope num_scope.

Lemma zipwith_length (op : A -> A -> A) (x y : ndarray A) :
  length (zipwith op x y) = Nat.min (length x) (length y).
Proof.
  revert y. induction x as [|a x IH]; intros [|b y]; simpl; auto.
Qed.

(** Against an array of three or more elements an operator returns an array
    of that length or raises. *)
Lemma broadcast_long (op : A -> A -> A) (x y z : ndarray A) :
  (3 <= length y)%nat -> broadcast op x y = Ok z -> length z = length y.
Proof.
  intros Hy. unfold broadcast.
  destruct (Nat.eqb (length x) (length y)) eqn:Hxy.
  - apply Nat.eqb_eq in Hxy. intros Hz. injection Hz as <-.
    rewrite zipwith_length. lia.
  - destruct x as [|a [|a' x]].
    + destruct y as [|b [|b' y]]; simpl in Hy; try lia; discriminate.
    + intros Hz. injection Hz as <-. now rewrite length_map.
    + destruct y as [|b [|b' y]]; simpl in Hy; try lia; discriminate.
Qed.

Lemma arr_add_pair_long (r1 r2 : A) (d : ndarray A) :
  (3 <= length d)%nat -> arr_add [r1; r2] d = Err ValueError.
Proof.
  destruct d as [|a [|b [|c d]]]; simpl; intros Hd; try lia. reflexivity.
Qed.

(** [rate_fn] needs two components and reads no more than two: on a shorter
    array it raises [IndexError]; on any other array it returns an array of
    exactly two rates, the same as on the first two components alone. *)
Theorem rate_fn_shape (T : Type) (C : vec) (t : T) :
  ((length C < 2)%nat -> rate_fn C t = Err IndexError)
  /\ ((2 <= length C)%nat ->
      exists r1 r2 : A,
        rate_fn C t = Ok [r1; r2] /\ rate_fn (firstn 2 C) t = Ok [r1; r2]).
Proof.
  split; intros Hlen.
  - destruct C as [|a [|b l]]; simpl in Hlen; try lia; reflexivity.
  - destruct C as [|a [|b l]]; simpl in Hlen; try lia.
    simpl firstn. rewrite !DSRFacts.rate_fn_cons. eauto.
Qed.

(** [dsr_fn] by shapes.  A concentration vector of fewer than two components
    raises [IndexError], whatever the side-stream composition is; one of
    more than two components raises [ValueError]; with exactly two
    components the function returns two rates when the side-stream
    composition has two components or one (which is then used for both
    species) and raises [ValueError] otherwise. *)
Theorem dsr_fn_shape (T : Type) (C : vec) (t : T) (alpha : A) (C0 : vec) :
  ((length C < 2)%nat -> dsr_fn C t (alpha, C0) = Err IndexError)
  /\ ((2 < length C)%nat -> dsr_fn C t (alpha, C0) = Err ValueError)
  /\ (length C = 2%nat ->
      (length C0 = 2%nat ->
         exists d1 d2 : A, dsr_fn C t (alpha, C0) = Ok [d1; d2])
      /\ (forall c0 : A, C0 = [c0] ->
            dsr_fn C t (alpha, C0) = dsr_fn C t (alpha, [c0; c0]))
      /\ (length C0 <> 1%nat -> length C0 <> 2%nat ->
            dsr_fn C t (alpha, C0) = Err ValueError)).
Proof.
  split; [|split].
  - intros Hlen. unfold dsr_fn.
    destruct C as [|a [|b l]]; simpl in Hlen; try lia; reflexivity.
  - intros Hlen. unfold dsr_fn. simpl fst. simpl snd.
    destruct C as [|a [|b [|c l]]]; simpl in Hlen; try lia.
    rewrite DSRFacts.rate_fn_cons. simpl bind.
    destruct (arr_sub C0 (a :: b :: c :: l)) as [d|e] eqn:Hd.
    + apply broadcast_long in Hd; [|simpl; lia].
      simpl bind. rewrite arr_add_pair_long; [reflexivity|].
      unfold scal_mul. rewrite length_map, Hd. simpl. lia.
    + simpl. unfold arr_sub, broadcast in Hd.
      destruct (Nat.eqb (length C0) (length (a :: b :: c :: l))); [discriminate|].
      destruct C0 as [|x [|y C0]]; try discriminate Hd;
        injection Hd as <-; reflexivity.
  - intros Hlen. destruct C as [|cA [|cB [|c l]]]; try discriminate Hlen.
    unfold dsr_fn. simpl fst. simpl snd. rewrite DSRFacts.rate_fn_cons.
    split; [|split].
    + intros H0. destruct C0 as [|a [|b [|c l]]]; try discriminate H0.
      simpl. eauto.
    + intros c0 ->. reflexivity.
    + intros H1 H2. destruct C0 as [|a [|b [|c l]]]; simpl in H1, H2; try lia;
        reflexivity.
Qed.

(** The CSTR residual by shapes: it returns, two residuals, exactly on a
    vector of two components; a shorter one raises [IndexError], a longer
    one [ValueError]. *)
Theorem cstr_fn_shape (tau : A) (C : vec) :
  ((length C < 2)%nat -> cstr_fn tau C = Err IndexError)
  /\ (length C = 2%nat -> exists f1 f2 : A, cstr_fn tau C = Ok [f1; f2])
  /\ ((2 < length C)%nat -> cstr_fn tau C = Err ValueError).
Proof.
  split; [|split]; intros Hlen.
  - destruct C as [|a [|b l]]; simpl in Hlen; try lia; reflexivity.
  - destruct C as [|a [|b [|c l]]]; try discriminate Hlen.
    rewrite DSRFacts.cstr_fn_pair. eauto.
  - destruct C as [|a [|b [|c l]]]; simpl in Hlen; try lia.
    unfold cstr_fn. rewrite DSRFacts.rate_fn_cons. reflexivity.
Qed.

End Generic.
End ShapeFacts.

(* ================================================================== *)
(** ** The kinetics, the DSR and the CSTR over the reals *)

Module RealFacts.
Local Open Scope R_scope.

Lemma Q2R_one : Q2R 1 = 1.
Proof. change 1%Q with (inject_Z 1). apply Q2R_of_Z. Qed.

(** Two results are equal when their two components are. *)
Lemma Ok_pair_eq (a b a' b' : R) :
  a = a' -> b = b' -> @Ok (list R) [a; b] = Ok [a'; b'].
Proof. now intros -> ->. Qed.

Lemma rate_fn_R (T : Type) (cA cB : R) (t : T) :
  DSR.rate_fn [cA; cB] t = Ok [ - (cA * cB) ; cA * cB - cB * cB ].
Proof.
  rewrite DSRFacts.rate_fn_cons. simpl lit. simpl power. rewrite Q2R_one.
  apply Ok_pair_eq; simpl; ring.
Qed.

Lemma dsr_fn_R (T : Type) (cA cB : R) (t : T) (alpha c0A c0B : R) :
  DSR.dsr_fn [cA; cB] t (alpha, [c0A; c0B])
  = Ok [ - (cA * cB) + alpha * (c0A - cA) ;
         cA * cB - cB * cB + alpha * (c0B - cB) ].
Proof. unfold DSR.dsr_fn. rewrite rate_fn_R. reflexivity. Qed.

Lemma cstr_fn_R (tau cA cB : R) :
  DSR.cstr_fn tau [cA; cB]
  = Ok [ 1 + tau * - (cA * cB) - cA ;
         1 / 10 + tau * (cA * cB - cB * cB) - cB ].
Proof.
  unfold DSR.cstr_fn. rewrite rate_fn_R, GridFacts.cstr_cf_R. reflexivity.
Qed.

(** The two rates add up to [-cB^2]: the total of A and B never grows.  The
    kinetics are at rest exactly when there is no B, and without clamping a
    negative [cA] turns the consumption of A into production. *)
Theorem rate_fn_balance (T : Type) (cA cB : R) (t : T) :
  exists rA rB : R,
    DSR.rate_fn [cA; cB] t = Ok [rA; rB]
    /\ rA + rB = - (cB * cB)
    /\ rA + rB <= 0
    /\ ((rA = 0 /\ rB = 0) <-> cB = 0)
    /\ (0 <= cA -> 0 <= cB -> rA <= 0)
    /\ (cA < 0 -> 0 < cB -> 0 < rA).
Proof.
  exists (- (cA * cB)), (cA * cB - cB * cB).
  split; [apply rate_fn_R|]. split; [ring|]. split; [nra|].
  split; [|split].
  - split.
    + intros [HA HB]. assert (Hsq : cB * cB = 0) by lra. nra.
    + intros ->. split; ring.
  - intros HA HB. nra.
  - intros HA HB. nra.
Qed.

(** The connection between the DSR and the CSTR.  When [tau * alpha = 1],
    the CSTR residual for the residence time [tau] is [tau] times the DSR
    right-hand side for the mixing factor [alpha] and the side-stream
    [cstr_cf]: the CSTR solutions for [tau] are exactly the points where
    that DSR is at rest. *)
Theorem cstr_root_is_dsr_rest (T : Type) (tau alpha cA cB : R) (t : T) :
  tau * alpha = 1 ->
  exists f1 f2 d1 d2 : R,
    DSR.cstr_fn tau [cA; cB] = Ok [f1; f2]
    /\ DSR.dsr_fn [cA; cB] t (alpha, DSR.cstr_cf) = Ok [d1; d2]
    /\ f1 = tau * d1 /\ f2 = tau * d2
    /\ ((f1 = 0 /\ f2 = 0) <-> (d1 = 0 /\ d2 = 0)).
Proof.
  intros Hta.
  assert (Htau : tau <> 0) by (intros ->; lra).
  rewrite GridFacts.cstr_cf_R, cstr_fn_R, dsr_fn_R.
  do 4 eexists. split; [reflexivity|]. split; [reflexivity|].
  assert (H1 : 1 + tau * - (cA * cB) - cA
               = tau * (- (cA * cB) + alpha * (1 - cA))).
  { transitivity (tau * - (cA * cB) + (tau * alpha) * (1 - cA)); [|ring].
    rewrite Hta. ring. }
  assert (H2 : 1 / 10 + tau * (cA * cB - cB * cB) - cB
               = tau * (cA * cB - cB * cB + alpha * (1 / 10 - cB))).
  { transitivity (tau * (cA * cB - cB * cB) + (tau * alpha) * (1 / 10 - cB));
      [|ring].
    rewrite Hta. ring. }
  split; [exact H1|]. split; [exact H2|].
  rewrite H1, H2. split.
  - intros [Ha Hb]. split.
    + apply Rmult_integral in Ha. tauto.
    + apply Rmult_integral in Hb. tauto.
  - intros [-> ->]. split; ring.
Qed.

(** The theorem at [tau = 2], [alpha = 1/2]. *)
Lemma cstr_root_is_dsr_rest_witness :
  2 * (1 / 2) = 1 /\
  exists f1 f2 d1 d2 : R,
    DSR.cstr_fn 2 [1 / 2; 3 / 10] = Ok [f1; f2]
    /\ DSR.dsr_fn [1 / 2; 3 / 10] tt (1 / 2, DSR.cstr_cf) = Ok [d1; d2]
    /\ f1 = 2 * d1 /\ f2 = 2 * d2.
Proof.
  assert (Hta : 2 * (1 / 2) = 1) by lra.
  split; [exact Hta|].
  destruct (cstr_root_is_dsr_rest unit 2 (1 / 2) (1 / 2) (3 / 10) tt Hta)
    as (f1 & f2 & d1 & d2 & Hf & Hd & H1 & H2 & _).
  exists f1, f2, d1, d2. auto.
Defined.

(** The two balance equations of the CSTR, solved for what they say about
    a solution. *)
Lemma cstr_balance_algebra (tau cA cB : R) :
  1 + tau * - (cA * cB) - cA = 0 ->
  1 / 10 + tau * (cA * cB - cB * cB) - cB = 0 ->
  cA + cB + tau * (cB * cB) = 11 / 10
  /\ cB = cA * (11 / 10 - cA)
  /\ cA <> 0 /\ cB <> 0
  /\ (0 <= tau -> cA + cB <= 11 / 10).
Proof.
  intros HA HB.
  assert (Hbal : cA + cB + tau * (cB * cB) = 11 / 10) by lra.
  assert (HcA : cA <> 0) by (intros ->; lra).
  assert (HcB : cB <> 0) by (intros ->; lra).
  split; [exact Hbal|]. split; [|split; [exact HcA|split; [exact HcB|]]].
  - assert (H1 : (tau * cB) * cA = 1 - cA) by lra.
    assert (H2 : (tau * cB) * cB = 11 / 10 - cA - cB) by lra.
    assert (H3 : (11 / 10 - cA - cB) * cA = (1 - cA) * cB).
    { rewrite <- H1, <- H2. ring. }
    lra.
  - intros Htau. nra.
Qed.

(** Every exact solution of the CSTR equation, for whatever residence time,
    has two components that satisfy the mass balance
    [cA + cB + tau * cB^2 = 1.1] and lie on the parabola
    [cB = cA * (1.1 - cA)]; neither component is zero; and for a
    non-negative residence time [cA + cB <= 1.1]. *)
Theorem cstr_root_on_parabola (tau : R) (C : DSR.vec) :
  DSR.cstr_fn tau C = Ok [0; 0] ->
  exists cA cB : R,
    C = [cA; cB]
    /\ cA + cB + tau * (cB * cB) = 11 / 10
    /\ cB = cA * (11 / 10 - cA)
    /\ cA <> 0 /\ cB <> 0
    /\ (0 <= tau -> cA + cB <= 11 / 10).
Proof.
  intros Hroot.
  destruct (DSRFacts.cstr_fn_ok tau C _ Hroot) as (cA & cB & -> & _).
  rewrite cstr_fn_R in Hroot. injection Hroot as HA HB.
  exists cA, cB. split; [reflexivity|].
  now apply cstr_balance_algebra.
Qed.

(** The theorem at the solution [[1/2, 3/10]] for [tau = 10/3]. *)
Lemma cstr_root_on_parabola_witness :
  DSR.cstr_fn (10 / 3) [1 / 2; 3 / 10] = Ok [0; 0] /\
  exists cA cB : R,
    [1 / 2; 3 / 10] = [cA; cB] /\ cB = cA * (11 / 10 - cA).
Proof.
  assert (Hroot : DSR.cstr_fn (10 / 3) [1 / 2; 3 / 10] = Ok [0; 0]).
  { rewrite cstr_fn_R. apply Ok_pair_eq; field. }
  split; [exact Hroot|].
  destruct (cstr_root_on_parabola (10 / 3) [1 / 2; 3 / 10] Hroot)
    as (cA & cB & HC & _ & Hpar & _).
  exists cA, cB. auto.
Defined.

(** The DSR right-hand side never points out of the triangle it starts in.
    For a non-negative mixing factor and a non-negative side-stream
    composition: where [cA = 0] the rate of A is not negative, where
    [cB = 0] the rate of B is not negative, and where [cA + cB] has reached
    the total of the side-stream the total does not grow. *)
Theorem dsr_fn_points_inward (T : Type) (alpha cA cB : R) (t : T) (c0A c0B : R) :
  0 <= alpha -> 0 <= c0A -> 0 <= c0B ->
  exists dA dB : R,
    DSR.dsr_fn [cA; cB] t (alpha, [c0A; c0B]) = Ok [dA; dB]
    /\ (cA = 0 -> 0 <= dA)
    /\ (cB = 0 -> 0 <= dB)
    /\ (c0A + c0B <= cA + cB -> dA + dB <= 0).
Proof.
  intros Ha H0A H0B. rewrite dsr_fn_R. do 2 eexists.
  split; [reflexivity|]. split; [|split].
  - intros ->. nra.
  - intros ->. nra.
  - intros Hsum. nra.
Qed.

(** The theorem for the side-stream of the plot, [cstr_cf = [1, 1/10]]. *)
Lemma dsr_fn_points_inward_witness :
  0 <= 1 / 2 /\
  exists dA dB : R,
    DSR.dsr_fn [0; 3 / 10] tt (1 / 2, [1; 1 / 10]) = Ok [dA; dB] /\ 0 <= dA.
Proof.
  assert (Ha : 0 <= 1 / 2) by lra.
  split; [exact Ha|].
  destruct (dsr_fn_points_inward unit (1 / 2) 0 (3 / 10) tt 1 (1 / 10) Ha)
    as (dA & dB & Hd & HA & _); [lra|lra|].
  exists dA, dB. split; [exact Hd|]. now apply HA.
Defined.



End RealFacts.

(* ================================================================== *)
(** ** The locus loop over a grid in two parts *)

Module LoopFacts.
Import DSR.
Section Generic.
Context {A : Type} `{Scalar A}.

(** One iteration. *)
Lemma cstr_loop_step (w : world ret) (tau : A) (ts : list A) (g : vec)
    (acc : list vec) :
  run w (cstr_loop (tau :: ts) g acc)
  = match w (newton_krylov (cstr_fn tau) g (lit (1 # 10000))) with
    | Returned Ci ws =>
        {| calls := newton_krylov (cstr_fn tau) g (lit (1 # 10000))
                    :: calls (run w (cstr_loop ts Ci (acc ++ @cons vec Ci nil)));
           stderr := ws ++ stderr (run w (cstr_loop ts Ci (acc ++ @cons vec Ci nil)));
           final := final (run w (cstr_loop ts Ci (acc ++ @cons vec Ci nil))) |}
    | Raised e ws =>
        {| calls := [newton_krylov (cstr_fn tau) g (lit (1 # 10000))];
           stderr := ws; final := Err e |}
    end.
Proof. reflexivity. Qed.

(** What the loop has appended before it starts only stands in front of
    what it goes on to append. *)
Lemma cstr_loop_acc (w : world ret) (ts : list A) :
  forall (g : vec) (acc : list vec),
    calls (run w (cstr_loop ts g acc)) = calls (run w (cstr_loop ts g []))
    /\ final (run w (cstr_loop ts g acc))
       = match final (run w (cstr_loop ts g [])) with
         | Ok l => Ok (acc ++ l)
         | Err e => Err e
         end.
Proof.
  induction ts as [|tau ts' IH]; intros g acc.
  - simpl. now rewrite app_nil_r.
  - rewrite !cstr_loop_step.
    destruct (w (newton_krylov (cstr_fn tau) g (lit (1 # 10000))))
      as [Ci ws|e ws]; [|split; reflexivity].
    change (@vec A) in Ci.
    destruct (IH Ci (acc ++ [Ci])) as [Hc1 Hf1].
    destruct (IH Ci ([] ++ [Ci])) as [Hc2 Hf2].
    cbn [calls final]. split.
    + f_equal. now rewrite Hc1, Hc2.
    + rewrite Hf1, Hf2.
      destruct (final (run w (cstr_loop ts' Ci []))) as [l|e]; [|reflexivity].
      now rewrite <- app_assoc.
Qed.

(** Extending the grid.  The loop over the residence times [ts1 ++ ts2] is
    the loop over [ts1] followed by the loop over [ts2] started from the
    last solution of the first part (from the original guess when [ts1] is
    empty): the calls are the calls of the two parts, the locus is the two
    loci one after the other, and an exception in the first part ends the
    whole before the second part makes any call. *)
Theorem cstr_loop_app (w : world ret) (ts1 ts2 : list A) (g : vec) :
  calls (run w (cstr_loop (ts1 ++ ts2) g []))
  = calls (run w (cstr_loop ts1 g []))
    ++ match final (run w (cstr_loop ts1 g [])) with
       | Ok l1 => calls (run w (cstr_loop ts2 (last l1 g) []))
       | Err _ => []
       end
  /\ final (run w (cstr_loop (ts1 ++ ts2) g []))
     = match final (run w (cstr_loop ts1 g [])) with
       | Ok l1 =>
           match final (run w (cstr_loop ts2 (last l1 g) [])) with
           | Ok l2 => Ok (l1 ++ l2)
           | Err e => Err e
           end
       | Err e => Err e
       end.
Proof.
  revert g. induction ts1 as [|tau ts1' IH]; intros g.
  - simpl. split; [reflexivity|].
    destruct (final (run w (cstr_loop ts2 g []))); reflexivity.
  - rewrite <- app_comm_cons, !cstr_loop_step.
    destruct (w (newton_krylov (cstr_fn tau) g (lit (1 # 10000))))
      as [Ci ws|e ws]; [|split; reflexivity].
    change (@vec A) in Ci.
    destruct (cstr_loop_acc w (ts1' ++ ts2) Ci ([] ++ [Ci])) as [Hc1 Hf1].
    destruct (cstr_loop_acc w ts1' Ci ([] ++ [Ci])) as [Hc2 Hf2].
    destruct (IH Ci) as [IHc IHf].
    cbn [calls final]. rewrite Hc1, Hf1, Hc2, Hf2, IHc, IHf.
    destruct (final (run w (cstr_loop ts1' Ci []))) as [l1|e].
    + cbn [app]. rewrite last_cons. split; [reflexivity|].
      destruct (final (run w (cstr_loop ts2 (last l1 Ci) []))); reflexivity.
    + split; reflexivity.
Qed.

End Generic.
End LoopFacts.

(* ================================================================== *)
(** ** The two plot functions: what they call, and when they stop *)

Lemma run_Do {call} {ret : call -> Type} {R} (w : world ret) (c : call)
    (k : ret c -> script ret R) :
  run w (Do c k)
  = match w c with
    | Returned x ws =>
        {| calls := c :: calls (run w (k x));
           stderr := ws ++ stderr (run w (k x));
           final := final (run w (k x)) |}
    | Raised e ws => {| calls := [c]; stderr := ws; final := Err e |}
    end.
Proof. reflexivity. Qed.

Lemma run_pure_step {call} {ret : call -> Type} {X R} (w : world ret)
    (r : result X) (k : X -> script ret R) :
  run w (pure_step r k)
  = match r with
    | Ok x => run w (k x)
    | Err e => {| calls := []; stderr := []; final := Err e |}
    end.
Proof. destruct r; reflexivity. Qed.

Lemma run_Done {call} {ret : call -> Type} {R} (w : world ret) (r : R) :
  run w (Done r) = {| calls := []; stderr := []; final := Ok r |}.
Proof. reflexivity. Qed.

(** Follow a script call by call, splitting on every answer. *)
Ltac follow_script :=
  repeat first
    [ match goal with
      | H : ?x = _ |- context [match ?x with _ => _ end] => rewrite H
      | |- context [match ?x with _ => _ end] => destruct x eqn:?
      end
    | progress cbn [calls final stderr]
    | progress cbn beta iota
    | rewrite run_pure_step
    | rewrite run_Done
    | rewrite run_Do ].

Module PlotFacts.
Import DSR.
Section Generic.
Context {A : Type} `{Scalar A} `{Numpy A}.

(** [plot_fn] calls, in this order, the integrator, then matplotlib's
    figure, hold, plot (locus), plot (trajectory), plot (end point), plot
    (start point), xlabel, ylabel, axis and show, and stops at the first
    call that raises or at the first array it cannot index.  It always
    calls the integrator, exactly once, first; it never calls the
    root-finder; and it returns only after all eleven calls. *)
Theorem plot_fn_call_order (w : world ret) (cstr_cs : list vec)
    (t_end alpha Cf_x Cf_y : A) :
  exists n : nat,
    (1 <= n <= 11)%nat
    /\ map routine (calls (run w (plot_fn cstr_cs t_end alpha Cf_x Cf_y)))
       = firstn n [ "odeint"; "plt.figure"; "plt.hold"; "plt.plot"; "plt.plot";
                    "plt.plot"; "plt.plot"; "plt.xlabel"; "plt.ylabel";
                    "plt.axis"; "plt.show" ]%string
    /\ (final (run w (plot_fn cstr_cs t_end alpha Cf_x Cf_y)) = Ok tt -> n = 11%nat).
Proof.
  unfold plot_fn. follow_script;
    match goal with
    | |- context [map routine ?l] =>
        exists (length l); cbn [length map routine firstn];
        repeat split; try lia; try reflexivity; try discriminate
    end.
Qed.

(** When the integrator fails.  If [odeint] raises, [plot_fn] ends with that
    exception and has called nothing else: no figure is opened.  If [odeint]
    returns an empty trajectory, [plot_fn] ends with an exception after at
    most five calls: it gets no further than plotting the locus and the
    (empty) trajectory, because the end point [dsr_cs[-1, 0]] cannot be
    indexed. *)
Theorem plot_fn_integrator_failure (w : world ret) (cstr_cs : list vec)
    (t_end alpha Cf_x Cf_y : A) :
  (forall e ws,
      w (odeint (dsr_fn (T:=A)) [Cf_x; Cf_y]
                (logspace (neg (lit 3)) (log10 t_end) 100) (alpha, cstr_cf))
      = Raised e ws ->
      calls (run w (plot_fn cstr_cs t_end alpha Cf_x Cf_y))
      = [ odeint (dsr_fn (T:=A)) [Cf_x; Cf_y]
                 (logspace (neg (lit 3)) (log10 t_end) 100) (alpha, cstr_cf) ]
      /\ final (run w (plot_fn cstr_cs t_end alpha Cf_x Cf_y)) = Err e)
  /\ (forall ws,
      w (odeint (dsr_fn (T:=A)) [Cf_x; Cf_y]
                (logspace (neg (lit 3)) (log10 t_end) 100) (alpha, cstr_cf))
      = Returned [] ws ->
      (length (calls (run w (plot_fn cstr_cs t_end alpha Cf_x Cf_y))) <= 5)%nat
      /\ exists e, final (run w (plot_fn cstr_cs t_end alpha Cf_x Cf_y)) = Err e).
Proof.
  split.
  - intros e ws Hw. unfold plot_fn. rewrite run_Do, Hw. split; reflexivity.
  - intros ws Hw.
    unfold plot_fn. rewrite run_Do, Hw. cbn [calls final stderr].
    follow_script;
      try match goal with
          | Hq : item2 [] _ _ = Ok _ |- _ => vm_compute in Hq; discriminate Hq
          end;
      cbn [length]; (split; [lia|eexists; reflexivity]).
Qed.




End Generic.
End PlotFacts.

Module PolytopePlotFacts.
Import Hyperplane.
Section Generic.
Context {K : Type} `{Scalar K}.

(** The polytope [plot_fn] calls, in this order, con2vert, plotHplanes,
    gca, plotRegion2D, set_xlim, set_ylim, set_xlabel, set_ylabel and show,
    and stops at the first call that raises; it returns only after all
    nine.  When con2vert raises, nothing else is called, so nothing is
    drawn.  The region drawn is made of the vertices con2vert returned for
    the constraints of this slider value, and the figure shown is the one
    plotRegion2D returned. *)
Theorem polytope_plot_call_order (w : world ret) (bi : K) :
  (exists n : nat,
      (1 <= n <= 9)%nat
      /\ map routine (calls (run w (plot_fn bi)))
         = firstn n [ "artools.con2vert"; "artools.plotHplanes"; "fig.gca";
                      "artools.plotRegion2D"; "ax.set_xlim"; "ax.set_ylim";
                      "ax.set_xlabel"; "ax.set_ylabel"; "plt.show" ]%string
      /\ (final (run w (plot_fn bi)) = Ok tt -> n = 9%nat))
  /\ (forall e ws,
        w (con2vert constraints_A (constraints_b bi)) = Raised e ws ->
        calls (run w (plot_fn bi)) = [con2vert constraints_A (constraints_b bi)]
        /\ final (run w (plot_fn bi)) = Err e)
  /\ (forall Vs ax al pv,
        In (plotRegion2D Vs ax al pv) (calls (run w (plot_fn bi))) ->
        exists ws,
          w (con2vert constraints_A (constraints_b bi)) = Returned Vs ws)
  /\ (forall fig,
        In (plt_show fig) (calls (run w (plot_fn bi))) ->
        exists Vs ax al pv ws,
          In (plotRegion2D Vs ax al pv) (calls (run w (plot_fn bi)))
          /\ w (plotRegion2D Vs ax al pv) = Returned fig ws).
Proof.
  split; [|split; [|split]].
  - unfold plot_fn. follow_script;
      match goal with
      | |- context [map routine ?l] =>
          exists (length l); cbn [length map routine firstn];
          repeat split; try lia; try reflexivity; try discriminate
      end.
  - intros e ws Hw. unfold plot_fn. rewrite run_Do, Hw. split; reflexivity.
  - intros Vs ax al pv. unfold plot_fn. follow_script; cbn [In]; intros Hin;
      repeat match goal with
             | Hor : _ \/ _ |- _ => destruct Hor
             | Hf : False |- _ => destruct Hf
             | Heq : _ = plotRegion2D _ _ _ _ |- _ =>
                 first [ discriminate Heq
                       | injection Heq as E1 E2 E3 E4; rewrite <- E1; clear E1 ]
             end;
      eauto.
  - intros fig. unfold plot_fn. follow_script; cbn [In]; intros Hin;
      repeat match goal with
             | Hor : _ \/ _ |- _ => destruct Hor
             | Hf : False |- _ => destruct Hf
             | Heq : _ = plt_show _ |- _ =>
                 first [ discriminate Heq
                       | injection Heq as E1; rewrite <- E1; clear E1 ]
             end;
      do 5 eexists; (split; [do 3 right; left; reflexivity | eassumption]).
Qed.

End Generic.
End PolytopePlotFacts.

(* ================================================================== *)
(** ** Where the DSR rests and where the CSTR solutions lie *)

Module LocusFacts.
Local Open Scope R_scope.

(** Where the DSR of the plot comes to rest.  For a mixing factor other
    than zero and the side-stream [cstr_cf], a point at which the DSR
    right-hand side is [[0, 0]] is an exact CSTR solution for the residence
    time [1 / alpha], and lies on the parabola [cB = cA * (1.1 - cA)] that
    carries the CSTR locus. *)
Theorem dsr_rest_on_cstr_locus (T : Type) (alpha cA cB : R) (t : T) :
  alpha <> 0 ->
  DSR.dsr_fn [cA; cB] t (alpha, DSR.cstr_cf) = Ok [0; 0] ->
  DSR.cstr_fn (1 / alpha) [cA; cB] = Ok [0; 0]
  /\ cB = cA * (11 / 10 - cA).
Proof.
  intros Ha Hrest.
  rewrite GridFacts.cstr_cf_R, RealFacts.dsr_fn_R in Hrest.
  injection Hrest as HA HB.
  assert (H1 : 1 + 1 / alpha * - (cA * cB) - cA = 0).
  { replace (1 + 1 / alpha * - (cA * cB) - cA)
      with (1 / alpha * (- (cA * cB) + alpha * (1 - cA))) by (field; exact Ha).
    rewrite HA. ring. }
  assert (H2 : 1 / 10 + 1 / alpha * (cA * cB - cB * cB) - cB = 0).
  { replace (1 / 10 + 1 / alpha * (cA * cB - cB * cB) - cB)
      with (1 / alpha * (cA * cB - cB * cB + alpha * (1 / 10 - cB)))
      by (field; exact Ha).
    rewrite HB. ring. }
  split.
  - rewrite RealFacts.cstr_fn_R. now apply RealFacts.Ok_pair_eq.
  - now destruct (RealFacts.cstr_balance_algebra _ _ _ H1 H2) as (_ & Hpar & _).
Qed.

(** The theorem at the rest point [[1/2, 3/10]] of the DSR with
    [alpha = 3/10]. *)
Lemma dsr_rest_on_cstr_locus_witness :
  3 / 10 <> 0 /\
  DSR.dsr_fn [1 / 2; 3 / 10] tt (3 / 10, DSR.cstr_cf) = Ok [0; 0] /\
  DSR.cstr_fn (1 / (3 / 10)) [1 / 2; 3 / 10] = Ok [0; 0].
Proof.
  assert (Ha : 3 / 10 <> 0) by lra.
  assert (Hrest : DSR.dsr_fn [1 / 2; 3 / 10] tt (3 / 10, DSR.cstr_cf) = Ok [0; 0]).
  { rewrite GridFacts.cstr_cf_R, RealFacts.dsr_fn_R.
    apply RealFacts.Ok_pair_eq; field. }
  split; [exact Ha|]. split; [exact Hrest|].
  apply (dsr_rest_on_cstr_locus unit (3 / 10) (1 / 2) (3 / 10) tt Ha Hrest).
Defined.

(** A CSTR solution with positive concentrations, for a non-negative
    residence time, lies inside the window [plot_fn] draws,
    [plt.axis([0, 1, 0, 0.7])]: [cA <= 1] and [cB <= 0.3025]. *)
Theorem positive_cstr_root_in_window (tau cA cB : R) :
  DSR.cstr_fn tau [cA; cB] = Ok [0; 0] ->
  0 <= tau -> 0 < cA -> 0 < cB ->
  cA <= 1 /\ cB <= 121 / 400 /\ cB < 7 / 10.
Proof.
  intros Hroot Htau HcA HcB.
  rewrite RealFacts.cstr_fn_R in Hroot. injection Hroot as HA HB.
  destruct (RealFacts.cstr_balance_algebra _ _ _ HA HB) as (_ & Hpar & _).
  assert (Hp : 0 <= tau * (cA * cB)).
  { apply Rmult_le_pos; [exact Htau|]. apply Rlt_le, Rmult_lt_0_compat; assumption. }
  assert (H1 : cA <= 1) by lra.
  assert (H2 : cB <= 121 / 400).
  { pose proof (Rle_0_sqr (cA - 11 / 20)) as Hs. unfold Rsqr in Hs.
    rewrite Hpar. nra. }
  repeat split; lra.
Qed.

(** The theorem at the solution [[1/2, 3/10]] for [tau = 10/3]. *)
Lemma positive_cstr_root_in_window_witness :
  DSR.cstr_fn (10 / 3) [1 / 2; 3 / 10] = Ok [0; 0] /\
  1 / 2 <= 1 /\ 3 / 10 <= 121 / 400.
Proof.
  assert (Hroot : DSR.cstr_fn (10 / 3) [1 / 2; 3 / 10] = Ok [0; 0]).
  { rewrite RealFacts.cstr_fn_R. apply RealFacts.Ok_pair_eq; field. }
  split; [exact Hroot|].
  destruct (positive_cstr_root_in_window (10 / 3) (1 / 2) (3 / 10) Hroot)
    as (H1 & H2 & _); [lra|lra|lra|].
  split; assumption.
Defined.

(** Being a root does not make a point physical: for the positive residence
    time 20/21 the CSTR equation is also solved by negative
    concentrations. *)
Example cstr_root_with_negative_concentrations :
  DSR.cstr_fn (20 / 21) [-1; -21 / 10] = Ok [0; 0].
Proof. rewrite RealFacts.cstr_fn_R. apply RealFacts.Ok_pair_eq; field. Qed.

End LocusFacts.

(* ================================================================== *)
(** ** The loop against a root-finder whose answers change *)

(** The fixed-point step from the feed. *)
Lemma picard_world_feed (tau tol : R) :
  DSR.picard_world (DSR.newton_krylov (DSR.cstr_fn tau) DSR.cstr_cf tol)
  = Returned [ (1 + (1 + tau * - (1 * (1 / 10)) - 1))%R ;
               (1 / 10 + (1 / 10 + tau * (1 * (1 / 10) - 1 / 10 * (1 / 10)) - 1 / 10))%R ]
             [].
Proof.
  cbv beta iota delta [DSR.picard_world].
  rewrite GridFacts.cstr_cf_R, RealFacts.cstr_fn_R. reflexivity.
Qed.

(** C2 over the reals, against the root-finder that takes one fixed-point
    step: from the feed [[1, 1/10]] and the first residence time 1e-3 it
    returns [[9999/10000, 10009/100000]], which is not the feed, and that
    value is the guess of the call for the second residence time. *)
Lemma cstr_loop_continuation_seeding_witness :
  exists Ci : DSR.vec,
    DSR.picard_world
      (DSR.newton_krylov (DSR.cstr_fn (nth 0 DSR.cstr_ts 0%R)) DSR.cstr_cf
                         (lit (1 # 10000)))
    = Returned Ci []
    /\ Ci = [(9999 / 10000)%R; (10009 / 100000)%R]
    /\ nth_error (calls (run DSR.picard_world DSR.cstr_cell)) 1
       = Some (DSR.newton_krylov (DSR.cstr_fn (nth 1 DSR.cstr_ts 0%R)) Ci
                                 (lit (1 # 10000))).
Proof.
  destruct (DSRFacts.cstr_loop_continuation_seeding (A:=R) DSR.picard_world)
    as (_ & Hnext & _).
  assert (Hlen : length (DSR.cstr_ts (A:=R)) = 100%nat).
  { rewrite GridFacts.cstr_ts_R. apply GridFacts.Rlogspace_100_length. }
  assert (H0 : nth 0 (DSR.cstr_ts (A:=R)) 0%R = (1 / 1000)%R).
  { rewrite GridFacts.cstr_ts_R. apply GridFacts.Rlogspace_100_ends. }
  unfold DSR.cstr_cell in *.
  destruct (DSR.cstr_ts (A:=R)) as [|t0 [|t1 rest]]; try discriminate Hlen.
  cbn [nth] in *. subst t0.
  assert (Hcalls : exists l,
             calls (run DSR.picard_world
                        (DSR.cstr_loop ((1 / 1000)%R :: t1 :: rest) DSR.cstr_cf []))
             = DSR.newton_krylov (DSR.cstr_fn (1 / 1000)%R) DSR.cstr_cf (lit (1 # 10000))
               :: DSR.newton_krylov (DSR.cstr_fn t1)
                    [ (1 + (1 + 1 / 1000 * - (1 * (1 / 10)) - 1))%R ;
                      (1 / 10 + (1 / 10 + 1 / 1000 * (1 * (1 / 10) - 1 / 10 * (1 / 10))
                                 - 1 / 10))%R ]
                    (lit (1 # 10000))
               :: l).
  { cbn [DSR.cstr_loop]. rewrite run_Do, picard_world_feed. cbn [calls].
    rewrite run_Do.
    destruct (DSR.picard_world (DSR.newton_krylov (DSR.cstr_fn t1) _ _));
      eexists; reflexivity. }
  destruct Hcalls as [l Hcalls]. rewrite Hcalls in *.
  destruct (Hnext 0%nat _ eq_refl)
    as (tau' & g' & Ci & ws & tau & Htau' & Hcall0 & Hw & Htau & Hc).
  cbn [nth_error] in Htau', Hcall0, Htau.
  injection Htau' as <-. injection Htau as <-.
  injection Hcall0 as Hg. subst g'.
  injection Hc as HCi.
  rewrite picard_world_feed in Hw. injection Hw as HCi' Hws.
  exists Ci. split; [|split].
  - rewrite picard_world_feed. rewrite <- HCi'. reflexivity.
  - rewrite <- HCi'. f_equal; [|f_equal]; lra.
  - cbn [nth_error]. rewrite HCi. reflexivity.
Defined.

(* ================================================================== *)
(** ** The plot against the sliders, over the reals *)


Module SliderFacts.
Local Open Scope R_scope.


(** For every value the end-time slider offers, the time grid [plot_fn]
    hands to the integrator has, over the reals, 100 strictly increasing
    points from 1e-3 to that value, which lies between 1 and 100. *)
Theorem interact_grid_increasing (w : world DSR.ret) (cstr_cs : list DSR.vec)
    (t_end alpha Cf_x Cf_y : Q) :
  DSR.offers DSR.t_end_slider t_end ->
  exists ts : list R,
    hd_error (calls (run w (DSR.interact cstr_cs t_end alpha Cf_x Cf_y)))
    = Some (DSR.odeint (DSR.dsr_fn (T:=R)) [lit Cf_x; lit Cf_y] ts
                       (lit alpha, DSR.cstr_cf))
    /\ length ts = 100%nat
    /\ nth 0 ts 0 = 1 / 1000
    /\ nth 99 ts 0 = lit t_end
    /\ 1 <= lit t_end <= 100
    /\ (forall i j : nat, (i < j < 100)%nat -> nth i ts 0 < nth j ts 0).
Proof.
  intros Hoff.
  assert (Hrange : 1 <= lit t_end <= 100).
  { destruct Hoff as (k & Hk & Hle). split.
    - rewrite Hk. simpl lit.
      rewrite Qreals.Q2R_plus, Qreals.Q2R_mult, !Q2R_of_Z.
      change 1%Q with (inject_Z 1). rewrite Q2R_of_Z.
      pose proof (IZR_le 0 (Z.of_nat k) (Zle_0_nat k)). lra.
    - apply Qreals.Qle_Rle in Hle. simpl lit.
      change 100%Q with (inject_Z 100) in Hle. rewrite Q2R_of_Z in Hle. exact Hle. }
  exists (logspace (neg (lit 3)) (log10 (lit t_end)) 100).
  split.
  { unfold DSR.interact, DSR.plot_fn. rewrite run_Do.
    destruct (w (DSR.odeint _ _ _ _)); reflexivity. }
  rewrite GridFacts.logspace_R.
  destruct (GridFacts.Rlogspace_100_ends (Rlog10 (lit t_end))) as [Hfirst Hlast].
  split; [apply GridFacts.Rlogspace_100_length|].
  split; [exact Hfirst|].
  split; [rewrite Hlast; apply GridFacts.Rpower_10_log10; lra|].
  split; [exact Hrange|].
  intros i j Hij. apply GridFacts.Rlogspace_100_increasing; [|exact Hij].
  apply GridFacts.Rlog10_lower. lra.
Qed.

(** The theorem at the top of the slider. *)
Lemma interact_grid_increasing_witness :
  DSR.offers DSR.t_end_slider 100 /\
  exists ts : list R,
    hd_error (calls (run DSR.stalled_world (DSR.interact [] 100 (1 # 2) 1 (1 # 10))))
    = Some (DSR.odeint (DSR.dsr_fn (T:=R)) [lit 1; lit (1 # 10)] ts
                       (lit (1 # 2), DSR.cstr_cf))
    /\ nth 99 ts 0 = lit 100.
Proof.
  assert (Hoff : DSR.offers DSR.t_end_slider 100).
  { exists 99%nat. split; [reflexivity|]. apply Qle_refl. }
  split; [exact Hoff|].
  destruct (interact_grid_increasing DSR.stalled_world [] 100 (1 # 2) 1 (1 # 10) Hoff)
    as (ts & Hcall & _ & _ & Hlast & _).
  exists ts. auto.
Defined.

End SliderFacts.

(* ================================================================== *)
(** ** The van de Vusse kinetics of the hyperplane notebook *)

Module VanDeVusseFacts.
Local Open Scope R_scope.

(** The van de Vusse kinetics over the reals: the rates are
    [-cA - 20 cA^2] and [cA - cB]; A is only consumed; and among the states
    with [cA >= 0] the kinetics are at rest at the origin and nowhere
    else. *)
Theorem van_de_vusse_rest (T : Type) (cA cB : R) (t : T) :
  exists rA rB : R,
    VanDeVusse.rate_fn [cA; cB] t = Ok [rA; rB]
    /\ rA = - cA - 20 * (cA * cA)
    /\ rB = cA - cB
    /\ (0 <= cA -> rA <= 0)
    /\ (0 <= cA -> ((rA = 0 /\ rB = 0) <-> (cA = 0 /\ cB = 0))).
Proof.
  exists (- cA - 20 * (cA * cA)), (cA - cB).
  split.
  - unfold VanDeVusse.rate_fn, getitem.
    rewrite pyindex_head, pyindex_second. cbn [bind]. simpl lit. simpl power.
    change 10%Q with (inject_Z 10). change 2%Q with (inject_Z 2).
    rewrite RealFacts.Q2R_one, !Q2R_of_Z.
    apply RealFacts.Ok_pair_eq; simpl; ring.
  - split; [reflexivity|]. split; [reflexivity|]. split.
    + intros HA. nra.
    + intros HA. split.
      * intros [H1 H2]. assert (cA = 0) by nra. split; lra.
      * intros [-> ->]. split; ring.
Qed.

End VanDeVusseFacts.
